(** * HLS playlist orchestrator: segment registry, window selector, renderer

    A shallow embedding of the Go package [orchestrator]
    ([internal/orchestrator]):
    - the data model of [models.go]: [Segment], [RenditionState],
      [StreamState];
    - the store: [InMemoryStore] with [GetStream], [SetStream],
      [ListStreamIDs];
    - [repository.go]: [InMemoryRepository] with [RegisterSegment],
      [GetRenditionSnapshot], [EndStream], [ActiveStreamCount];
    - the service: [NewService], [GetPlaylist] and the two window selectors
      [contiguousSlidingWindow] and [contiguousVisibleSegments];
    - the renderer: [BuildLivePlaylist], [targetDurationFromSegments].

    Conventions.
    - Go [int64] and [int] (64 bits on the linux targets the Dockerfile builds
      for) are integers of [Z]; every arithmetic operation of the source that
      can overflow is followed by its wrap-around, [wrap64].
    - A Go slice is a [list]; [len] is the length as a [Z].  A slice
      expression whose bounds are out of range panics, so the functions that
      contain one return an [outcome].
    - A Go map is a [gmap]; the pointers the repository keeps
      ([*StreamState], [*RenditionState]) are allocated by the repository
      itself and never shared between two keys, so a store is the tree of
      maps the pointers span and a write through a pointer is a write back
      into that tree.
    - The mutex of the repository serialises the four operations; every
      operation is modelled as one atomic state transformer.
    - [sort.Slice], [float64] with its formatting, and [time.Now] are the
      library's: the model takes them as parameters ([SliceSorter],
      [Float64Ops], the argument [now]). *)

From Stdlib Require Import ZArith Lia String Ascii List.
From stdpp Require Import base tactics option list sorting gmap strings pretty.

Local Open Scope Z_scope.

(** ** Machine integers *)

Definition int64_min : Z := - 2 ^ 63.
Definition int64_max : Z := 2 ^ 63 - 1.

(** Two's complement wrap-around of a 64-bit signed result. *)
Definition wrap64 (z : Z) : Z := (z + 2 ^ 63) mod 2 ^ 64 - 2 ^ 63.

Definition in_int64 (z : Z) : Prop := int64_min ≤ z ≤ int64_max.

(** The builtin [len]. *)
Definition len {A} (l : list A) : Z := Z.of_nat (length l).

(** ** Results of code that can panic *)

Inductive outcome (A : Type) : Type :=
  | Returns (a : A)
  | Panics.
Arguments Returns {A} a.
Arguments Panics {A}.

Global Instance outcome_ret : MRet outcome := λ A a, Returns a.

Global Instance outcome_bind : MBind outcome := λ A B k o,
  match o with
  | Returns a => k a
  | Panics => Panics
  end.

(** The slice expression [s[low:]]: the run-time check is
    [0 <= low <= len(s)], anything else is "slice bounds out of range". *)
Definition slice_from {A} (s : list A) (low : Z) : outcome (list A) :=
  if bool_decide (0 ≤ low ≤ len s) then Returns (drop (Z.to_nat low) s)
  else Panics.

(** [make([]T, 0, n)] for an element of [Segment]'s size (56 bytes: an int64,
    a float64, a string header and a [time.Time]): the run time refuses a
    negative capacity and one whose byte size exceeds the allocation limit
    (2^48 bytes on linux/amd64) with "makeslice: cap out of range".  Only
    this range check is modelled: a capacity within the range that the
    machine cannot allocate ends the process with a fatal error, which
    [outcome] does not have, so a call is stated to return only for the
    capacities up to [modest_capacity]. *)
Definition max_segment_cap : Z := 2 ^ 48 / 56.

(** Capacities whose buffer, at 56 bytes an element, stays below 4 MiB. *)
Definition modest_capacity : Z := 2 ^ 16.

Definition make_segments_ok (cap : Z) : bool :=
  bool_decide (0 ≤ cap ≤ max_segment_cap).

(** ** Library functions the package calls

    [sort.Slice(x, less)] with [less] comparing an int64 key by [<].  The Go
    documentation promises a sorted permutation and nothing about the order
    of equal keys; the model takes any function with that contract. *)
Class SliceSorter : Type := {
  sort_slice : ∀ {A : Type}, (A → Z) → list A → list A;
  sort_slice_perm : ∀ {A : Type} (key : A → Z) (l : list A),
    sort_slice key l ≡ₚ l;
  sort_slice_sorted : ∀ {A : Type} (key : A → Z) (l : list A),
    StronglySorted (λ x y, key x ≤ key y) (sort_slice key l)
}.

(** [float64] with the operations the package applies to a duration. *)
Class Float64Ops : Type := {
  float64 : Type;
  f64_zero : float64;                      (* the literal 0.0 *)
  f64_gt : float64 → float64 → bool;       (* a > b *)
  f64_le : float64 → float64 → bool;       (* a <= b *)
  f64_ceil_int : float64 → Z;              (* int(math.Ceil(a)) *)
  f64_fmt1 : float64 → string              (* fmt.Sprintf("%.1f", a) *)
}.

(** [json.NewDecoder(body).Decode(&seg)] on a zero [Segment]: an error, or
    the three fields the JSON tags name ([ReceivedAt] is tagged ["-"] and
    is left as it is).  [Sequence] is decoded into an int64. *)
Class SegmentDecoder `{Float64Ops} : Type := {
  decode_segment : string → option (Z * float64 * string);
  decode_segment_int64 : ∀ body sequence duration path,
    decode_segment body = Some (sequence, duration, path) → in_int64 sequence
}.

(** [strconv.Atoi]: the integer, or none where Go returns an error. *)
Class Strconv : Type := {
  Atoi : string → option Z
}.

(** [time.Time], of which the package only stores values. *)
Definition Time : Type := Z.
Definition zero_time : Time := 0.

Abbreviation StreamID := string (only parsing).
Abbreviation RenditionID := string (only parsing).

(** ** Playlist text *)

(** The line feed [\n] of the Go string literals. *)
Definition nl : string := String "010"%char "".

Definition chars (s : string) : list ascii := list_ascii_of_string s.

(** [text] ends with [ending]. *)
Definition ends_with (ending text : string) : bool :=
  bool_decide (chars ending `suffix_of` chars text).

(** The text made of the given lines, each closed by a line feed. *)
Definition unlines (lines : list string) : string :=
  foldr (λ line rest, line +:+ nl +:+ rest) "" lines.

(** The last line of the text reads [#EXT-X-ENDLIST]. *)
Definition has_trailing_endlist (text : string) : bool :=
  ends_with (nl +:+ "#EXT-X-ENDLIST" +:+ nl) text.

Section Orchestrator.
Context `{F64 : Float64Ops} `{Sorter : SliceSorter}.

(** ** The data model: segments *)

Record Segment : Type := mkSegment {
  Sequence : Z;
  Duration : float64;
  Path : string;
  ReceivedAt : Time
}.

(** ** The two window selectors *)

(** The loop shared by both selectors,
    [for i := 0; i < len(s); i++ { if i > 0 && s[i].Sequence != s[i-1].Sequence+1 { break }; out = append(out, s[i]) }],
    from index [i >= 1] on: [prev] is [s[i-1]], the argument is [s[i:]]. *)
Fixpoint scan_contiguous (prev : Segment) (rest : list Segment) : list Segment :=
  match rest with
  | [] => []
  | s :: rest' =>
      if bool_decide (Sequence s ≠ wrap64 (Sequence prev + 1)) then []
      else s :: scan_contiguous s rest'
  end.

(** The whole loop: index 0 is appended without a test. *)
Definition contiguous_run (s : list Segment) : list Segment :=
  match s with
  | [] => []
  | s0 :: rest => s0 :: scan_contiguous s0 rest
  end.

Definition contiguousSlidingWindow (segs : list Segment) (windowSize : Z)
  : outcome (list Segment) :=
  if bool_decide (windowSize ≤ 0) || bool_decide (len segs = 0) then Returns []
  else if negb (make_segments_ok windowSize) then Panics
  else
    let out := contiguous_run segs in
    if bool_decide (len out > windowSize)
    then slice_from out (wrap64 (len out - windowSize))
    else Returns out.

(** [sort.Slice] reorders the caller's slice in place; [GetPlaylist], the one
    caller, passes the copy [GetRenditionSnapshot] made for it, so only the
    result is modelled. *)
Definition contiguousVisibleSegments (segs : list Segment) (windowSize : Z)
  : outcome (list Segment) :=
  if bool_decide (len segs = 0) then Returns []
  else
    let segs := sort_slice Sequence segs in
    let start :=
      if bool_decide (len segs > windowSize)
      then wrap64 (len segs - windowSize) else 0 in
    windowed ← slice_from segs start;
    Returns (contiguous_run windowed).

(** ** The renderer *)

(** [max := 0.0; for _, seg := range segments { if seg.Duration > max { max = seg.Duration } }] *)
Definition max_duration (segments : list Segment) : float64 :=
  foldl (λ max seg, if f64_gt (Duration seg) max then Duration seg else max)
        f64_zero segments.

Definition targetDurationFromSegments (segments : list Segment) : Z :=
  let max := max_duration segments in
  if f64_le max f64_zero then 1 else f64_ceil_int max.

(** One pass of [for _, seg := range segments] over the builder. *)
Definition write_segment (b : string) (seg : Segment) : string :=
  b +:+ ("#EXTINF:" +:+ f64_fmt1 (Duration seg) +:+ "," +:+ nl)
    +:+ Path seg +:+ nl.

Definition write_endlist (b : string) (ended : bool) : string :=
  if ended then b +:+ "#EXT-X-ENDLIST" +:+ nl else b.

(** [b] is the [strings.Builder]; the test [len(segments) == 0] is the match
    on the list, whose head is [segments[0]]. *)
Definition BuildLivePlaylist (segments : list Segment) (ended : bool) : string :=
  let b := "#EXTM3U" +:+ nl in
  let b := b +:+ "#EXT-X-VERSION:3" +:+ nl in
  match segments with
  | [] =>
      let b := b +:+ "#EXT-X-TARGETDURATION:1" +:+ nl in
      let b := b +:+ "#EXT-X-MEDIA-SEQUENCE:0" +:+ nl in
      write_endlist b ended
  | seg0 :: _ =>
      let targetDuration := targetDurationFromSegments segments in
      let mediaSequence := Sequence seg0 in
      let b := b +:+ "#EXT-X-TARGETDURATION:" +:+ pretty targetDuration +:+ nl in
      let b := b +:+ "#EXT-X-MEDIA-SEQUENCE:" +:+ pretty mediaSequence +:+ nl +:+ nl in
      let b := foldl write_segment b segments in
      write_endlist b ended
  end.

(** ** The data model: renditions, streams, the store *)

Record RenditionState : Type := mkRenditionState {
  RenditionState_ID : RenditionID;
  Segments : gmap Z Segment;
  RenditionState_Ended : bool
}.

Record StreamState : Type := mkStreamState {
  StreamState_ID : StreamID;
  Renditions : gmap RenditionID RenditionState;
  StreamState_Ended : bool
}.

Record InMemoryStore : Type := mkStore {
  streams : gmap StreamID StreamState
}.

Definition NewInMemoryStore : InMemoryStore := mkStore ∅.

Definition GetStream (s : InMemoryStore) (id : StreamID) : option StreamState :=
  streams s !! id.

Definition SetStream (s : InMemoryStore) (st : StreamState) : InMemoryStore :=
  mkStore (<[StreamState_ID st := st]> (streams s)).

(** The order of [for id := range s.streams] is not specified; the model
    lists the keys in the order of the map's enumeration. *)
Definition ListStreamIDs (s : InMemoryStore) : list StreamID :=
  (map_to_list (streams s)).*1.

(** ** The repository *)

Inductive error : Type :=
  | ErrStreamEnded
  | ErrRenditionEnded.

(** A write through the pointer [GetStream(streamID)] returned: the object
    the store holds under [streamID] becomes [st]. *)
Definition store_stream (r : InMemoryStore) (streamID : StreamID)
    (st : StreamState) : InMemoryStore :=
  mkStore (<[streamID := st]> (streams r)).

Definition getOrCreateStreamLocked (r : InMemoryStore) (streamID : StreamID)
  : InMemoryStore * StreamState :=
  match GetStream r streamID with
  | Some stream => (r, stream)
  | None =>
      let stream := mkStreamState streamID ∅ false in
      (SetStream r stream, stream)
  end.

Definition getOrCreateRenditionLocked (stream : StreamState)
    (renditionID : RenditionID) : StreamState * RenditionState :=
  match Renditions stream !! renditionID with
  | Some rendition => (stream, rendition)
  | None =>
      let rendition := mkRenditionState renditionID ∅ false in
      (mkStreamState (StreamState_ID stream)
         (<[renditionID := rendition]> (Renditions stream))
         (StreamState_Ended stream),
       rendition)
  end.

(** [now] is the value [time.Now().UTC()] takes in this call. *)
Definition RegisterSegment (now : Time) (r : InMemoryStore)
    (streamID : StreamID) (renditionID : RenditionID) (seg : Segment)
  : InMemoryStore * option error :=
  let '(r, stream) := getOrCreateStreamLocked r streamID in
  if StreamState_Ended stream then (r, Some ErrStreamEnded)
  else
    let '(stream, rendition) := getOrCreateRenditionLocked stream renditionID in
    let r := store_stream r streamID stream in
    if RenditionState_Ended rendition then (r, Some ErrRenditionEnded)
    else
      match Segments rendition !! Sequence seg with
      | Some _ => (r, None)
      | None =>
          let seg := mkSegment (Sequence seg) (Duration seg) (Path seg) now in
          let rendition :=
            mkRenditionState (RenditionState_ID rendition)
              (<[Sequence seg := seg]> (Segments rendition))
              (RenditionState_Ended rendition) in
          let stream :=
            mkStreamState (StreamState_ID stream)
              (<[renditionID := rendition]> (Renditions stream))
              (StreamState_Ended stream) in
          (store_stream r streamID stream, None)
      end.

(** The zero value a map read yields for a missing key. *)
Definition zero_segment : Segment := mkSegment 0 f64_zero "" zero_time.

Definition GetRenditionSnapshot (r : InMemoryStore)
    (streamID : StreamID) (renditionID : RenditionID)
  : list Segment * bool * bool :=
  match GetStream r streamID with
  | None => ([], false, false)
  | Some stream =>
      match Renditions stream !! renditionID with
      | None => ([], false, false)
      | Some rendition =>
          if bool_decide (size (Segments rendition) = 0%nat)
          then ([], RenditionState_Ended rendition, true)
          else
            let sequences := (map_to_list (Segments rendition)).*1 in
            let sequences := sort_slice id sequences in
            let segments :=
              (λ seq, default zero_segment (Segments rendition !! seq))
                <$> sequences in
            (segments, RenditionState_Ended rendition, true)
      end
  end.

Definition end_rendition (rendition : RenditionState) : RenditionState :=
  mkRenditionState (RenditionState_ID rendition) (Segments rendition) true.

Definition EndStream (r : InMemoryStore) (streamID : StreamID)
  : InMemoryStore * option error :=
  match GetStream r streamID with
  | None => (r, None)
  | Some stream =>
      if StreamState_Ended stream then (r, None)
      else
        let stream :=
          mkStreamState (StreamState_ID stream)
            (end_rendition <$> Renditions stream) true in
        (store_stream r streamID stream, None)
  end.

Definition ActiveStreamCount (r : InMemoryStore) : Z :=
  foldl (λ n id,
           match GetStream r id with
           | Some st => if negb (StreamState_Ended st) then n + 1 else n
           | None => n
           end)
        0 (ListStreamIDs r).

(** ** The service *)

Definition DefaultWindowSize : Z := 6.

(** The [repo] field is the store every operation below takes as argument. *)
Record Service : Type := mkService {
  windowSize : Z
}.

Definition NewService (windowSize : Z) : Service :=
  mkService (if bool_decide (windowSize ≤ 0) then DefaultWindowSize else windowSize).

Definition Service_RegisterSegment (s : Service) (now : Time) (r : InMemoryStore)
    (streamID : StreamID) (renditionID : RenditionID) (seg : Segment)
  : InMemoryStore * option error :=
  RegisterSegment now r streamID renditionID seg.

Definition GetPlaylist (s : Service) (r : InMemoryStore)
    (streamID : StreamID) (renditionID : RenditionID)
  : outcome (string * bool) :=
  let '(segments, ended, ok) := GetRenditionSnapshot r streamID renditionID in
  if negb ok then Returns ("", false)
  else
    window ← contiguousVisibleSegments segments (windowSize s);
    Returns (BuildLivePlaylist window ended, true).

Definition Service_EndStream (s : Service) (r : InMemoryStore)
    (streamID : StreamID) : InMemoryStore * option error :=
  EndStream r streamID.

(** ** The HTTP handlers *)

Context `{Decoder : !SegmentDecoder} `{Conv : Strconv}.

Definition MethodGet : string := "GET".
Definition MethodPost : string := "POST".

Definition StatusOK : Z := 200.
Definition StatusCreated : Z := 201.
Definition StatusBadRequest : Z := 400.
Definition StatusNotFound : Z := 404.
Definition StatusMethodNotAllowed : Z := 405.
Definition StatusConflict : Z := 409.
Definition StatusInternalServerError : Z := 500.

Definition playlistContentType : string := "application/vnd.apple.mpegurl".

(** What the handlers read of a [*http.Request]: the method, the
    parameters of the matched route, the body. *)
Record Request : Type := mkRequest {
  Method : string;
  URLParams : gmap string string;
  Body : string
}.

(** [chi.URLParam(r, key)]: the empty string where the route has no such
    parameter. *)
Definition URLParam (r : Request) (key : string) : string :=
  default "" (URLParams r !! key).

(** The calls a handler makes on its [http.ResponseWriter], in order:
    [w.WriteHeader(code)], [w.Header().Set(key, value)], [w.Write(bytes)]. *)
Inductive writer_call : Type :=
  | CallWriteHeader (code : Z)
  | CallHeaderSet (key value : string)
  | CallWrite (bytes : string).

(** The counters of [metrics.Metrics], each the number of its [Inc] calls.
    (The gauge is written by the [/metrics] route alone.) *)
Record Metrics : Type := mkMetrics {
  requestsTotal : Z;
  segmentsRegisteredTotal : Z;
  streamsEndedTotal : Z;
  errorsTotal : Z
}.

Definition IncRequests (m : Metrics) : Metrics :=
  mkMetrics (requestsTotal m + 1) (segmentsRegisteredTotal m)
    (streamsEndedTotal m) (errorsTotal m).

Definition IncSegmentsRegistered (m : Metrics) : Metrics :=
  mkMetrics (requestsTotal m) (segmentsRegisteredTotal m + 1)
    (streamsEndedTotal m) (errorsTotal m).

Definition IncStreamsEnded (m : Metrics) : Metrics :=
  mkMetrics (requestsTotal m) (segmentsRegisteredTotal m)
    (streamsEndedTotal m + 1) (errorsTotal m).

Definition IncErrors (m : Metrics) : Metrics :=
  mkMetrics (requestsTotal m) (segmentsRegisteredTotal m)
    (streamsEndedTotal m) (errorsTotal m + 1).

(** What a [Handler] reaches and changes: the repository of its service
    and its [metrics], which may be nil.  The logger only writes. *)
Record Handler : Type := mkHandler {
  repo : InMemoryStore;
  metrics : option Metrics
}.

(** The [default] case of the switch on [err] answers 500 to an error that
    is neither [ErrStreamEnded] nor [ErrRenditionEnded]; [error] has no such
    value. *)
Definition Handler_RegisterSegment (s : Service) (now : Time) (h : Handler)
    (r : Request) : Handler * list writer_call :=
  if bool_decide (Method r ≠ MethodPost)
  then (h, [CallWriteHeader StatusMethodNotAllowed])
  else
    let streamID := URLParam r "stream_id" in
    let renditionID := URLParam r "rendition" in
    if bool_decide (streamID = "") || bool_decide (renditionID = "")
    then (h, [CallWriteHeader StatusBadRequest])
    else
      match decode_segment (Body r) with
      | None => (h, [CallWriteHeader StatusBadRequest])
      | Some (sequence, duration, path) =>
          let seg := mkSegment sequence duration path zero_time in
          let '(repo', err) :=
            Service_RegisterSegment s now (repo h) streamID renditionID seg in
          match err with
          | Some ErrStreamEnded | Some ErrRenditionEnded =>
              (mkHandler repo' (metrics h), [CallWriteHeader StatusConflict])
          | None =>
              (mkHandler repo' (IncSegmentsRegistered <$> metrics h),
               [CallWriteHeader StatusCreated])
          end
      end.

Definition Handler_GetPlaylist (s : Service) (h : Handler) (r : Request)
  : outcome (list writer_call) :=
  if bool_decide (Method r ≠ MethodGet)
  then Returns [CallWriteHeader StatusMethodNotAllowed]
  else
    let streamID := URLParam r "stream_id" in
    let renditionID := URLParam r "rendition" in
    if bool_decide (streamID = "") || bool_decide (renditionID = "")
    then Returns [CallWriteHeader StatusBadRequest]
    else
      answer ← GetPlaylist s (repo h) streamID renditionID;
      let '(m3u8, ok) := answer in
      if negb ok then Returns [CallWriteHeader StatusNotFound]
      else Returns [CallHeaderSet "Content-Type" playlistContentType;
                    CallWriteHeader StatusOK;
                    CallWrite m3u8].

Definition Handler_EndStream (s : Service) (h : Handler) (r : Request)
  : Handler * list writer_call :=
  if bool_decide (Method r ≠ MethodPost)
  then (h, [CallWriteHeader StatusMethodNotAllowed])
  else
    let streamID := URLParam r "stream_id" in
    if bool_decide (streamID = "")
    then (h, [CallWriteHeader StatusBadRequest])
    else
      let '(repo', err) := Service_EndStream s (repo h) streamID in
      match err with
      | Some _ =>
          (mkHandler repo' (metrics h),
           [CallWriteHeader StatusInternalServerError])
      | None =>
          (mkHandler repo' (IncStreamsEnded <$> metrics h),
           [CallWriteHeader StatusOK])
      end.

(** ** The metrics middleware *)

(** The [status] field of the wrapping [responseWriter] once [next] has
    returned: [http.StatusOK] at first, then the code of every
    [WriteHeader]. *)
Definition captured_status (calls : list writer_call) : Z :=
  foldl (λ status call,
           match call with
           | CallWriteHeader code => code
           | _ => status
           end)
        StatusOK calls.

(** [RequestMiddleware(m)(next)], with [m] the [metrics] of the handler as
    [main] wires them; [m.IncRequests()] on a nil [m] panics. *)
Definition RequestMiddleware
    (next : Handler → Request → outcome (Handler * list writer_call))
    (h : Handler) (r : Request) : outcome (Handler * list writer_call) :=
  served ← next h r;
  let '(h, calls) := served in
  match metrics h with
  | None => Panics
  | Some m =>
      let m := IncRequests m in
      let m := if bool_decide (captured_status calls >= 400)
               then IncErrors m else m in
      Returns (mkHandler (repo h) (Some m), calls)
  end.

(** ** The configuration *)

(** [os.Getenv]: the empty string for a variable that is not set. *)
Definition Getenv (env : gmap string string) (key : string) : string :=
  default "" (env !! key).

Definition GetEnv (env : gmap string string) (key fallback : string) : string :=
  let s := Getenv env key in
  if bool_decide (s ≠ "") then s else fallback.

Definition GetEnvInt (env : gmap string string) (key : string) (fallback : Z)
  : Z :=
  let s := Getenv env key in
  if bool_decide (s ≠ "")
  then match Atoi s with
       | Some n => n
       | None => fallback
       end
  else fallback.

(** The service [main] builds:
    [windowSize := config.GetEnvInt("SLIDING_WINDOW_SIZE", 6)], then
    [orchestrator.NewService(repo, windowSize)]. *)
Definition main_service (env : gmap string string) : Service :=
  let windowSize := GetEnvInt env "SLIDING_WINDOW_SIZE" 6 in
  NewService windowSize.

(** ** Histories of the repository

    The repository's mutex makes every history a sequence of whole
    operations; the two readers leave the store as it is. *)
Inductive op : Type :=
  | OpRegisterSegment (now : Time) (streamID : StreamID)
      (renditionID : RenditionID) (seg : Segment)
  | OpEndStream (streamID : StreamID)
  | OpGetRenditionSnapshot (streamID : StreamID) (renditionID : RenditionID)
  | OpActiveStreamCount.

Definition step (r : InMemoryStore) (o : op) : InMemoryStore :=
  match o with
  | OpRegisterSegment now streamID renditionID seg =>
      (RegisterSegment now r streamID renditionID seg).1
  | OpEndStream streamID => (EndStream r streamID).1
  | OpGetRenditionSnapshot _ _ => r
  | OpActiveStreamCount => r
  end.

Definition run (r : InMemoryStore) (ops : list op) : InMemoryStore :=
  foldl step r ops.

(** The states of a repository made by [NewInMemoryRepository]. *)
Definition reachable (r : InMemoryStore) : Prop :=
  ∃ ops, r = run NewInMemoryStore ops.

Definition lookup_rendition (r : InMemoryStore) (streamID : StreamID)
    (renditionID : RenditionID) : option RenditionState :=
  stream ← GetStream r streamID; Renditions stream !! renditionID.

Definition lookup_segment (r : InMemoryStore) (streamID : StreamID)
    (renditionID : RenditionID) (sequence : Z) : option Segment :=
  rendition ← lookup_rendition r streamID renditionID;
  Segments rendition !! sequence.

Definition stream_ended (r : InMemoryStore) (streamID : StreamID) : Prop :=
  ∃ stream, GetStream r streamID = Some stream ∧
            StreamState_Ended stream = true.

Definition rendition_ended (r : InMemoryStore) (streamID : StreamID)
    (renditionID : RenditionID) : Prop :=
  ∃ rendition, lookup_rendition r streamID renditionID = Some rendition ∧
               RenditionState_Ended rendition = true.

(** [StreamState.Ended] implies [RenditionState.Ended] of every rendition
    the stream contains. *)
Definition ended_cascades (r : InMemoryStore) : Prop :=
  ∀ streamID stream renditionID rendition,
    GetStream r streamID = Some stream →
    StreamState_Ended stream = true →
    Renditions stream !! renditionID = Some rendition →
    RenditionState_Ended rendition = true.

(** Every segment is filed under its own sequence number. *)
Definition keys_match (r : InMemoryStore) : Prop :=
  ∀ streamID renditionID sequence seg,
    lookup_segment r streamID renditionID sequence = Some seg →
    Sequence seg = sequence.

(** ** Specification vocabulary *)

(** Adjacent elements differ in [Sequence] by exactly one. *)
Definition no_gap (l : list Segment) : Prop :=
  ∀ (i : nat) a b, l !! i = Some a → l !! (i + 1)%nat = Some b →
    Sequence b = Sequence a + 1.

Definition sorted_by_sequence (l : list Segment) : Prop :=
  StronglySorted (λ a b, Sequence a ≤ Sequence b) l.

(** What the type [[]Segment] guarantees of a value: every [Sequence] is an
    int64 and the length is an [int]. *)
Definition go_slice (l : list Segment) : Prop :=
  Forall (λ s, in_int64 (Sequence s)) l ∧ len l ≤ int64_max.

(** ** Auxiliary definitions *)

(** The candidate window: the last [windowSize] elements of the sorted slice. *)
Definition candidate_window (segs : list Segment) (windowSize : Z) : list Segment :=
  drop (length segs - Z.to_nat windowSize) (sort_slice Sequence segs).

(** What [getOrCreateStreamLocked] returns: the stream the store holds, or
    the new one. *)
Definition stream_or_new (r : InMemoryStore) (streamID : StreamID) : StreamState :=
  default (mkStreamState streamID ∅ false) (GetStream r streamID).

(** What [getOrCreateRenditionLocked] returns. *)
Definition rendition_or_new (stream : StreamState) (renditionID : RenditionID)
  : RenditionState :=
  default (mkRenditionState renditionID ∅ false) (Renditions stream !! renditionID).

(** The stream once [rendition.Segments[seg.Sequence] = seg] has run. *)
Definition with_segment (now : Time) (stream : StreamState)
    (renditionID : RenditionID) (rendition : RenditionState) (seg : Segment)
  : StreamState :=
  mkStreamState (StreamState_ID stream)
    (<[renditionID :=
         mkRenditionState (RenditionState_ID rendition)
           (<[Sequence seg := mkSegment (Sequence seg) (Duration seg) (Path seg) now]>
              (Segments rendition))
           (RenditionState_Ended rendition)]> (Renditions stream))
    (StreamState_Ended stream).

(** The segments of a non-empty rendition as [GetRenditionSnapshot] lists
    them. *)
Definition snapshot_segments (m : gmap Z Segment) : list Segment :=
  let sequences := sort_slice id (map_to_list m).*1 in
  (λ seq, default zero_segment (m !! seq)) <$> sequences.

(** The builder when the loop over a non-empty slice starts. *)
Definition header_of (segments : list Segment) : string :=
  (("#EXTM3U" +:+ nl) +:+ "#EXT-X-VERSION:3" +:+ nl)
    +:+ "#EXT-X-TARGETDURATION:"
    +:+ pretty (targetDurationFromSegments segments) +:+ nl.

(** The character of [nl]. *)
Definition LF : ascii := "010"%char.

(** The segments the store holds for a rendition, none when it is unknown. *)
Definition segments_of (r : InMemoryStore) (streamID : StreamID)
    (renditionID : RenditionID) : gmap Z Segment :=
  from_option Segments ∅ (lookup_rendition r streamID renditionID).

(** A segment as the registry files it. *)
Definition stamped (now : Time) (seg : Segment) : Segment :=
  mkSegment (Sequence seg) (Duration seg) (Path seg) now.

(** First write wins. *)
Definition file_segment (m : gmap Z Segment) (now : Time) (seg : Segment)
  : gmap Z Segment :=
  match m !! Sequence seg with
  | Some _ => m
  | None => <[Sequence seg := stamped now seg]> m
  end.

(** Neither the stream nor the rendition has ended (either may not exist
    yet). *)
Definition live (r : InMemoryStore) (streamID : StreamID)
    (renditionID : RenditionID) : Prop :=
  ¬ stream_ended r streamID ∧ ¬ rendition_ended r streamID renditionID.

(** Registrations of one rendition in a row. *)
Definition register_all (r : InMemoryStore) (streamID : StreamID)
    (renditionID : RenditionID) (arrivals : list (Time * Segment))
  : InMemoryStore :=
  foldl (λ r '(now, seg), (RegisterSegment now r streamID renditionID seg).1)
        r arrivals.

(** The arrivals as the entries they would make in a rendition's map. *)
Definition entries (arrivals : list (Time * Segment)) : list (Z * Segment) :=
  (λ '(now, seg), (Sequence seg, stamped now seg)) <$> arrivals.

(** Every stream has a rendition and every rendition a segment. *)
Definition nothing_empty (r : InMemoryStore) : Prop :=
  ∀ streamID stream,
    GetStream r streamID = Some stream →
    Renditions stream ≠ ∅ ∧
    ∀ renditionID rendition,
      Renditions stream !! renditionID = Some rendition →
      Segments rendition ≠ ∅.

(** Durations the comparisons and [math.Ceil] treat as numbers: on them
    [>] is the negation of [<=], [<=] is a total preorder,
    [int(math.Ceil(a))] is monotone, is 0 at 0 and at least 1 above 0.  (A
    NaN, an infinity or a value beyond the range of [int] is not one.) *)
Definition ordinary_durations (ordinary : float64 → Prop) : Prop :=
  ordinary f64_zero ∧
  (∀ a b, ordinary a → ordinary b → f64_gt a b = negb (f64_le a b)) ∧
  (∀ a b, ordinary a → ordinary b →
     f64_le a b = true ∨ f64_le b a = true) ∧
  (∀ a b c, ordinary a → ordinary b → ordinary c →
     f64_le a b = true → f64_le b c = true → f64_le a c = true) ∧
  (∀ a b, ordinary a → ordinary b →
     f64_le a b = true → f64_ceil_int a ≤ f64_ceil_int b) ∧
  f64_ceil_int f64_zero = 0 ∧
  (∀ a, ordinary a → f64_le a f64_zero = false → 1 ≤ f64_ceil_int a).

(** The two lines of a segment. *)
Definition segment_lines (seg : Segment) : list string :=
  ["#EXTINF:" +:+ f64_fmt1 (Duration seg) +:+ ","; Path seg].

(** The lines of a playlist. *)
Definition playlist_lines (segments : list Segment) (ended : bool)
  : list string :=
  match segments with
  | [] =>
      ["#EXTM3U"; "#EXT-X-VERSION:3"; "#EXT-X-TARGETDURATION:1";
       "#EXT-X-MEDIA-SEQUENCE:0"]
  | seg0 :: _ =>
      ["#EXTM3U"; "#EXT-X-VERSION:3";
       "#EXT-X-TARGETDURATION:" +:+ pretty (targetDurationFromSegments segments);
       "#EXT-X-MEDIA-SEQUENCE:" +:+ pretty (Sequence seg0);
       ""]
      ++ (segments ≫= segment_lines)
  end
  ++ (if ended then ["#EXT-X-ENDLIST"] else []).

(** A rendition is ended only in an ended stream. *)
Definition ends_with_stream (r : InMemoryStore) : Prop :=
  ∀ streamID stream renditionID rendition,
    GetStream r streamID = Some stream →
    Renditions stream !! renditionID = Some rendition →
    RenditionState_Ended rendition = true →
    StreamState_Ended stream = true.

(** Every stream and every rendition is filed under its own [ID]. *)
Definition ids_match (r : InMemoryStore) : Prop :=
  ∀ streamID stream,
    GetStream r streamID = Some stream →
    StreamState_ID stream = streamID ∧
    ∀ renditionID rendition,
      Renditions stream !! renditionID = Some rendition →
      RenditionState_ID rendition = renditionID.

(** The streams that have not ended. *)
Definition streams_not_ended (r : InMemoryStore) : gmap StreamID StreamState :=
  filter (λ kv, StreamState_Ended kv.2 = false) (streams r).

(** A segment without the time the registry stamped on it. *)
Definition untimed (seg : Segment) : Segment :=
  mkSegment (Sequence seg) (Duration seg) (Path seg) zero_time.

(** A segment with nothing but its sequence number. *)
Definition plain (sequence : Z) : Segment :=
  mkSegment sequence f64_zero "" zero_time.

(** Three segments, a gap, two more. *)
Definition gapped : list Segment := [plain 1; plain 2; plain 3; plain 5; plain 6].

(** * Properties *)

(** ** Arithmetic *)

Lemma wrap64_id z : in_int64 z → wrap64 z = z.
Proof.
  unfold in_int64, int64_min, int64_max, wrap64. intros Hz.
  rewrite Z.mod_small; lia.
Qed.

Lemma wrap64_range z : in_int64 (wrap64 z).
Proof.
  unfold in_int64, int64_min, int64_max, wrap64.
  pose proof (Z.mod_pos_bound (z + 2 ^ 63) (2 ^ 64)). lia.
Qed.

(** A successor computed with wrap-around that did not go down is the true
    successor. *)
Lemma wrap64_succ_ge a b :
  in_int64 a → b = wrap64 (a + 1) → a ≤ b → b = a + 1.
Proof.
  intros Ha -> Hle.
  destruct (decide (a = int64_max)) as [->|Hne].
  - exfalso. revert Hle. vm_compute. congruence.
  - rewrite wrap64_id; [done|].
    unfold in_int64, int64_min, int64_max in *. lia.
Qed.

(** ** Sorted lists *)

Section sorted_lists.
Context {A : Type} (key : A → Z).

(** With distinct keys the sorted permutation itself is unique. *)
Lemma sorted_perm_unique (l1 l2 : list A) :
  StronglySorted (λ x y, key x < key y) l1 →
  StronglySorted (λ x y, key x ≤ key y) l2 →
  l2 ≡ₚ l1 → l2 = l1.
Proof.
  intros H1. revert l2.
  induction H1 as [|a l1 Hl1 IH Ha]; intros l2 H2 Hp.
  - by apply Permutation_nil_r in Hp.
  - destruct H2 as [|b l2 Hl2 Hb].
    { symmetry in Hp. by apply Permutation_nil_r in Hp. }
    assert (b = a) as ->.
    { assert (b ∈ a :: l1) as Hin1 by (rewrite <-Hp; left).
      assert (a ∈ b :: l2) as Hin2 by (rewrite Hp; left).
      apply elem_of_cons in Hin1 as [?|Hin1]; [done|].
      apply elem_of_cons in Hin2 as [?|Hin2]; [done|].
      rewrite Forall_forall in Ha, Hb.
      specialize (Ha _ Hin1). specialize (Hb _ Hin2). lia. }
    f_equal. apply IH; [done|]. by apply Permutation_cons_inv in Hp.
Qed.

(** Elements picked with strictly increasing keys out of a sorted list
    form a subsequence of it. *)
Lemma increasing_sublist (r l : list A) :
  StronglySorted (λ x y, key x < key y) r →
  StronglySorted (λ x y, key x ≤ key y) l →
  (∀ x, x ∈ r → x ∈ l) → r `sublist_of` l.
Proof.
  intros Hr Hl. revert r Hr.
  induction Hl as [|a l Hl IH Ha]; intros r Hr Hin.
  - destruct r as [|x r]; [done|].
    specialize (Hin x). rewrite elem_of_nil in Hin.
    exfalso. apply Hin. left.
  - destruct Hr as [|x r Hr Hx]; [apply sublist_nil_l|].
    rewrite Forall_forall in Ha, Hx.
    assert (key a ≤ key x) as Hax.
    { assert (x ∈ a :: l) as Hxl by (apply Hin; left).
      apply elem_of_cons in Hxl as [->|Hxl]; [lia|by apply Ha]. }
    assert (∀ y, y ∈ r → y ∈ l) as Hrl.
    { intros y Hy. specialize (Hx _ Hy).
      assert (y ∈ a :: l) as Hyl by (apply Hin; by right).
      apply elem_of_cons in Hyl as [->|?]; [lia|done]. }
    assert (x ∈ a :: l) as Hxl by (apply Hin; left).
    apply elem_of_cons in Hxl as [->|Hxl].
    + apply sublist_skip. by apply IH.
    + apply sublist_cons. apply IH; [by constructor; [|apply Forall_forall]|].
      intros y Hy. apply elem_of_cons in Hy as [->|Hy]; auto.
Qed.

Lemma StronglySorted_lookup_lt (R : relation A) (l : list A) (i j : nat) a b :
  StronglySorted R l → (i < j)%nat →
  l !! i = Some a → l !! j = Some b → R a b.
Proof.
  intros Hl. revert i j.
  induction Hl as [|x l Hl IH Hx]; intros i j Hij Hi Hj.
  - by rewrite lookup_nil in Hi.
  - destruct j as [|j]; [lia|]. simpl in Hj. destruct i as [|i]; simpl in Hi.
    + injection Hi as <-. rewrite Forall_forall in Hx.
      by eapply Hx, list_elem_of_lookup_2.
    + apply (IH i j); [lia|done..].
Qed.

Lemma StronglySorted_strict (l : list Z) :
  StronglySorted Z.le l → NoDup l → StronglySorted Z.lt l.
Proof.
  induction 1 as [|x l Hl IH Hx]; intros Hnd; [constructor|].
  apply NoDup_cons in Hnd as [Hnotin Hnd].
  constructor; [by apply IH|].
  rewrite Forall_forall in Hx |- *. intros y Hy.
  specialize (Hx y Hy). assert (x ≠ y) by (by intros ->). lia.
Qed.

Lemma StronglySorted_by_key (l : list A) :
  StronglySorted Z.lt (key <$> l) → StronglySorted (λ x y, key x < key y) l.
Proof.
  induction l as [|x l IH]; simpl; intros Hs; [constructor|].
  apply StronglySorted_cons in Hs as [Hx Hl].
  constructor; [by apply IH|].
  rewrite Forall_fmap in Hx. exact Hx.
Qed.
End sorted_lists.

(** ** The contiguity scan *)

Lemma scan_contiguous_prefix prev rest :
  scan_contiguous prev rest `prefix_of` rest.
Proof.
  revert prev. induction rest as [|s rest IH]; intros prev; simpl; [done|].
  case_bool_decide; [apply prefix_nil|]. by apply prefix_cons.
Qed.

Lemma contiguous_run_prefix l : contiguous_run l `prefix_of` l.
Proof.
  destruct l as [|s0 rest]; simpl; [done|].
  apply prefix_cons, scan_contiguous_prefix.
Qed.

Lemma scan_contiguous_adjacent prev rest (i : nat) a b :
  (prev :: scan_contiguous prev rest) !! i = Some a →
  (prev :: scan_contiguous prev rest) !! (i + 1)%nat = Some b →
  Sequence b = wrap64 (Sequence a + 1).
Proof.
  revert prev i. induction rest as [|s rest IH]; intros prev i; simpl.
  - destruct i; simpl; [done|]. by rewrite lookup_nil.
  - case_bool_decide as Hgap.
    + destruct i; simpl; [done|]. by rewrite lookup_nil.
    + destruct i as [|i]; simpl.
      * intros [= <-] [= <-]. exact Hgap.
      * apply IH.
Qed.

Lemma contiguous_run_adjacent l (i : nat) a b :
  contiguous_run l !! i = Some a →
  contiguous_run l !! (i + 1)%nat = Some b →
  Sequence b = wrap64 (Sequence a + 1).
Proof.
  destruct l as [|s0 rest]; simpl.
  - by rewrite lookup_nil.
  - apply scan_contiguous_adjacent.
Qed.

Lemma no_gap_increasing l :
  no_gap l → StronglySorted (λ a b, Sequence a < Sequence b) l.
Proof.
  induction l as [|a l IH]; intros Hgap; [constructor|].
  assert (no_gap l) as Hl.
  { intros i x y Hx Hy. by apply (Hgap (S i)). }
  specialize (IH Hl). constructor; [done|].
  destruct l as [|b l]; [constructor|].
  assert (Sequence b = Sequence a + 1) as Hab by (by apply (Hgap 0%nat)).
  apply StronglySorted_cons in IH as [Hb _].
  constructor; [lia|]. eapply Forall_impl; [exact Hb|]. simpl. lia.
Qed.

(** ** The live-edge selector on a positive window *)

Lemma sort_slice_length {A} (key : A → Z) (l : list A) :
  length (sort_slice key l) = length l.
Proof. apply Permutation_length, sort_slice_perm. Qed.

Lemma visible_positive_window segs w :
  len segs ≤ int64_max → 0 < w →
  contiguousVisibleSegments segs w
  = Returns (contiguous_run (candidate_window segs w)).
Proof.
  intros Hlen Hw. unfold contiguousVisibleSegments, candidate_window.
  case_bool_decide as Hempty.
  { destruct segs; [|done]. simpl.
    pose proof (sort_slice_perm Sequence (@nil Segment)) as Hp.
    apply Permutation_nil_r in Hp. by rewrite Hp. }
  unfold go_slice, len in *. rewrite sort_slice_length. cbn zeta.
  case_bool_decide as Hcmp.
  - rewrite wrap64_id by (unfold in_int64, int64_min, int64_max in *; lia).
    unfold slice_from, len. rewrite sort_slice_length.
    rewrite bool_decide_true by lia. simpl. do 2 f_equal. f_equal. lia.
  - unfold slice_from, len. rewrite bool_decide_true by lia. simpl.
    do 2 f_equal. replace (length segs - Z.to_nat w)%nat with 0%nat by lia.
    done.
Qed.

Lemma candidate_window_length segs w :
  0 < w → len (candidate_window segs w) ≤ w.
Proof.
  intros Hw. unfold candidate_window, len.
  rewrite length_drop, sort_slice_length. lia.
Qed.

Lemma candidate_window_sorted segs w :
  sorted_by_sequence (candidate_window segs w).
Proof.
  unfold candidate_window, sorted_by_sequence.
  pose proof (sort_slice_sorted Sequence segs) as Hs.
  rewrite <-(take_drop (length segs - Z.to_nat w) (sort_slice Sequence segs)) in Hs.
  by apply StronglySorted_app in Hs as (_ & _ & ?).
Qed.

Lemma candidate_window_elem segs w x :
  x ∈ candidate_window segs w → x ∈ segs.
Proof.
  unfold candidate_window. intros Hx.
  rewrite <-(sort_slice_perm Sequence segs).
  eapply subseteq_drop, Hx.
Qed.

Lemma visible_window_sorted segs w :
  sorted_by_sequence (contiguous_run (candidate_window segs w)).
Proof.
  destruct (contiguous_run_prefix (candidate_window segs w)) as [k Hk].
  pose proof (candidate_window_sorted segs w) as Hs.
  unfold sorted_by_sequence in *. rewrite Hk in Hs.
  by apply StronglySorted_app in Hs as (_ & ? & _).
Qed.

Lemma visible_window_elem segs w x :
  x ∈ contiguous_run (candidate_window segs w) → x ∈ segs.
Proof.
  intros Hx. apply (candidate_window_elem segs w).
  eapply elem_of_prefix; [exact Hx|]. apply contiguous_run_prefix.
Qed.

Lemma visible_window_no_gap segs w :
  Forall (λ s, in_int64 (Sequence s)) segs →
  no_gap (contiguous_run (candidate_window segs w)).
Proof.
  intros Hrange i a b Ha Hb.
  apply wrap64_succ_ge.
  - rewrite Forall_forall in Hrange. apply Hrange.
    eapply visible_window_elem, list_elem_of_lookup_2, Ha.
  - by eapply contiguous_run_adjacent.
  - eapply (StronglySorted_lookup_lt
              (λ x y : Segment, Sequence x ≤ Sequence y) _ i (i + 1));
      [apply visible_window_sorted|lia|done..].
Qed.

(** C1. On a segment list sorted ascending by sequence and a positive
    window size, [contiguousVisibleSegments] returns a subsequence of its
    input in which adjacent elements differ in sequence by exactly 1 and
    whose length is at most the window size. *)
Theorem visible_window_contiguous_bounded segs w :
  sorted_by_sequence segs → go_slice segs → 0 < w →
  ∃ visible,
    contiguousVisibleSegments segs w = Returns visible ∧
    visible `sublist_of` segs ∧
    no_gap visible ∧
    len visible ≤ w.
Proof.
  intros Hsorted [Hrange Hlen] Hw.
  exists (contiguous_run (candidate_window segs w)).
  pose proof (visible_window_no_gap segs w Hrange) as Hgap.
  split; [by apply visible_positive_window|]. split; [|split; [done|]].
  - apply (increasing_sublist Sequence); [by apply no_gap_increasing|done|].
    apply visible_window_elem.
  - pose proof (candidate_window_length segs w Hw).
    pose proof (prefix_length _ _ (contiguous_run_prefix (candidate_window segs w))).
    unfold len in *. lia.
Qed.

(** C10. On a non-empty segment list and a window size of at least 1 the
    result of [contiguousVisibleSegments] is non-empty: its first element is
    the first element of the candidate window. *)
Theorem visible_window_nonempty segs w :
  segs ≠ [] → len segs ≤ int64_max → 1 ≤ w →
  ∃ first rest,
    contiguousVisibleSegments segs w = Returns (first :: rest) ∧
    head (candidate_window segs w) = Some first.
Proof.
  intros Hne Hlen Hw.
  rewrite visible_positive_window by (done || lia).
  destruct (candidate_window segs w) as [|s0 rest] eqn:Hcand.
  - exfalso. apply (f_equal length) in Hcand.
    unfold candidate_window in Hcand.
    rewrite length_drop, sort_slice_length in Hcand. simpl in Hcand.
    destruct segs; [done|]. simpl in Hcand. lia.
  - simpl. eauto.
Qed.

(** With a negative window size (any negative [int]) and a non-empty slice
    the slice expression [segs[start:]] is out of range: the call panics
    instead of returning an empty window. *)
Lemma visible_window_negative_panics segs w :
  segs ≠ [] → len segs ≤ int64_max → int64_min ≤ w < 0 →
  contiguousVisibleSegments segs w = Panics.
Proof.
  intros Hne Hlen [Hwmin Hw]. unfold contiguousVisibleSegments.
  rewrite bool_decide_false by (destruct segs; [done|unfold len; simpl; lia]).
  cbn zeta. unfold len in *. rewrite sort_slice_length.
  rewrite bool_decide_true by lia.
  unfold slice_from, len. rewrite sort_slice_length.
  rewrite bool_decide_false; [done|].
  assert (0 < length segs)%nat by (destruct segs; [done|simpl; lia]).
  destruct (decide (Z.of_nat (length segs) - w ≤ int64_max)) as [Hfit|Hover].
  - rewrite wrap64_id by (unfold in_int64, int64_min, int64_max in *; lia). lia.
  - intros [Hlo Hhi]. revert Hlo.
    unfold wrap64, int64_min, int64_max in *.
    replace (Z.of_nat (length segs) - w + 2 ^ 63)
      with (Z.of_nat (length segs) - w - 2 ^ 63 + 1 * 2 ^ 64) by lia.
    rewrite Z_mod_plus_full, Z.mod_small by lia. lia.
Qed.

(** Zero is the one non-positive window size the function answers: the
    candidate window is empty. *)
Lemma visible_window_zero segs :
  len segs ≤ int64_max → contiguousVisibleSegments segs 0 = Returns [].
Proof.
  intros Hlen. unfold contiguousVisibleSegments.
  case_bool_decide as Hempty; [done|].
  cbn zeta. unfold len in *. rewrite sort_slice_length.
  rewrite bool_decide_true by lia.
  rewrite Z.sub_0_r, wrap64_id by (unfold in_int64, int64_min, int64_max in *; lia).
  unfold slice_from, len. rewrite sort_slice_length.
  rewrite bool_decide_true by lia. simpl.
  rewrite drop_ge; [done|]. rewrite sort_slice_length. lia.
Qed.

(** ** The registry *)

Lemma store_stream_id r streamID stream :
  GetStream r streamID = Some stream → store_stream r streamID stream = r.
Proof.
  destruct r as [m]. unfold GetStream, store_stream. simpl. intros Hm.
  f_equal. by apply insert_id.
Qed.

Lemma store_stream_twice r streamID st1 st2 :
  store_stream (store_stream r streamID st1) streamID st2
  = store_stream r streamID st2.
Proof. unfold store_stream. simpl. by rewrite insert_insert_eq. Qed.

Lemma RegisterSegment_unfold now r streamID renditionID seg :
  RegisterSegment now r streamID renditionID seg =
  let stream := stream_or_new r streamID in
  if StreamState_Ended stream then (r, Some ErrStreamEnded)
  else
    let rendition := rendition_or_new stream renditionID in
    if RenditionState_Ended rendition then (r, Some ErrRenditionEnded)
    else
      match Segments rendition !! Sequence seg with
      | Some _ => (r, None)
      | None =>
          (store_stream r streamID
             (with_segment now stream renditionID rendition seg), None)
      end.
Proof.
  unfold RegisterSegment, getOrCreateStreamLocked, stream_or_new, with_segment.
  destruct (GetStream r streamID) as [stream|] eqn:Hstream; simpl.
  - destruct (StreamState_Ended stream) eqn:Hended; [done|].
    unfold getOrCreateRenditionLocked, rendition_or_new.
    destruct (Renditions stream !! renditionID) as [rendition|] eqn:Hrend; simpl.
    + rewrite (store_stream_id r streamID stream Hstream).
      destruct (RenditionState_Ended rendition); [done|].
      destruct (Segments rendition !! Sequence seg); [done|].
      by rewrite Hended.
    + rewrite lookup_empty, store_stream_twice.
      by rewrite insert_insert_eq, Hended.
  - unfold getOrCreateRenditionLocked, rendition_or_new. simpl.
    rewrite !lookup_empty. simpl. rewrite lookup_empty.
    unfold SetStream. simpl.
    change (mkStore (<[streamID:=mkStreamState streamID ∅ false]> (streams r)))
      with (store_stream r streamID (mkStreamState streamID ∅ false)).
    rewrite !store_stream_twice.
    by rewrite insert_insert_eq.
Qed.

Lemma GetStream_store_stream r streamID stream streamID' :
  GetStream (store_stream r streamID stream) streamID'
  = if decide (streamID = streamID') then Some stream else GetStream r streamID'.
Proof. unfold GetStream, store_stream. simpl. apply lookup_insert. Qed.

(** What a registration can change: nothing, or the one rendition of the one
    stream, both of them not ended. *)
Lemma RegisterSegment_effect now r streamID renditionID seg :
  let r' := (RegisterSegment now r streamID renditionID seg).1 in
  r' = r ∨
  (StreamState_Ended (stream_or_new r streamID) = false ∧
   RenditionState_Ended
     (rendition_or_new (stream_or_new r streamID) renditionID) = false ∧
   Segments (rendition_or_new (stream_or_new r streamID) renditionID)
     !! Sequence seg = None ∧
   r' = store_stream r streamID
          (with_segment now (stream_or_new r streamID) renditionID
             (rendition_or_new (stream_or_new r streamID) renditionID) seg)).
Proof.
  rewrite RegisterSegment_unfold. cbn zeta.
  destruct (StreamState_Ended _) eqn:Hs; [by left|].
  destruct (RenditionState_Ended _) eqn:Hr; [by left|].
  destruct (Segments _ !! _) eqn:Hseg; [by left|]. by right.
Qed.

Lemma EndStream_effect r streamID :
  let r' := (EndStream r streamID).1 in
  r' = r ∨
  ∃ stream, GetStream r streamID = Some stream ∧
    StreamState_Ended stream = false ∧
    r' = store_stream r streamID
           (mkStreamState (StreamState_ID stream)
              (end_rendition <$> Renditions stream) true).
Proof.
  unfold EndStream. destruct (GetStream r streamID) as [stream|] eqn:Hs; [|by left].
  destruct (StreamState_Ended stream) eqn:He; [by left|]. right. eauto.
Qed.

Lemma stream_or_new_Some r streamID stream :
  GetStream r streamID = Some stream → stream_or_new r streamID = stream.
Proof. unfold stream_or_new. by intros ->. Qed.

Lemma rendition_or_new_Some stream renditionID rendition :
  Renditions stream !! renditionID = Some rendition →
  rendition_or_new stream renditionID = rendition.
Proof. unfold rendition_or_new. by intros ->. Qed.

Lemma lookup_rendition_store_stream r streamID stream streamID' renditionID :
  lookup_rendition (store_stream r streamID stream) streamID' renditionID
  = if decide (streamID = streamID') then Renditions stream !! renditionID
    else lookup_rendition r streamID' renditionID.
Proof.
  unfold lookup_rendition. rewrite GetStream_store_stream. by case_decide.
Qed.

Lemma Renditions_stream_or_new r streamID renditionID :
  Renditions (stream_or_new r streamID) !! renditionID
  = lookup_rendition r streamID renditionID.
Proof.
  unfold stream_or_new, lookup_rendition.
  destruct (GetStream r streamID); simpl; [done|apply lookup_empty].
Qed.

Lemma Segments_rendition_or_new r streamID renditionID sequence :
  Segments (rendition_or_new (stream_or_new r streamID) renditionID) !! sequence
  = lookup_segment r streamID renditionID sequence.
Proof.
  unfold rendition_or_new, lookup_segment.
  rewrite Renditions_stream_or_new.
  destruct (lookup_rendition r streamID renditionID); simpl;
    [done|apply lookup_empty].
Qed.

Lemma Ended_rendition_or_new r streamID renditionID :
  RenditionState_Ended (rendition_or_new (stream_or_new r streamID) renditionID) = true
  ↔ rendition_ended r streamID renditionID.
Proof.
  unfold rendition_or_new, rendition_ended.
  rewrite Renditions_stream_or_new.
  destruct (lookup_rendition r streamID renditionID) as [rd|]; simpl.
  - split; [eauto|]. by intros (? & [= <-] & ?).
  - split; [done|]. by intros (? & ? & ?).
Qed.

Lemma Ended_stream_or_new r streamID :
  StreamState_Ended (stream_or_new r streamID) = true ↔ stream_ended r streamID.
Proof.
  unfold stream_or_new, stream_ended.
  destruct (GetStream r streamID) as [st|]; simpl.
  - split; [eauto|]. by intros (? & [= <-] & ?).
  - split; [done|]. by intros (? & ? & ?).
Qed.

(** *** One step never clears an ended flag *)

Lemma RegisterSegment_stream_ended now r streamID renditionID seg streamID' :
  stream_ended r streamID' →
  stream_ended (RegisterSegment now r streamID renditionID seg).1 streamID'.
Proof.
  destruct (RegisterSegment_effect now r streamID renditionID seg)
    as [->|(Hs & _ & _ & ->)]; [done|].
  intros Hended. unfold stream_ended. rewrite GetStream_store_stream.
  case_decide as Heq; [|done]. subst streamID'.
  apply Ended_stream_or_new in Hended. congruence.
Qed.

Lemma RegisterSegment_rendition_ended now r streamID renditionID seg
    streamID' renditionID' :
  rendition_ended r streamID' renditionID' →
  rendition_ended (RegisterSegment now r streamID renditionID seg).1
    streamID' renditionID'.
Proof.
  destruct (RegisterSegment_effect now r streamID renditionID seg)
    as [->|(_ & Hr & _ & ->)]; [done|].
  intros Hended. unfold rendition_ended.
  rewrite lookup_rendition_store_stream.
  case_decide as Heq; [|done]. subst streamID'.
  unfold with_segment. simpl. rewrite lookup_insert.
  case_decide as Heq'.
  - subst renditionID'. apply Ended_rendition_or_new in Hended. congruence.
  - by rewrite Renditions_stream_or_new.
Qed.

Lemma EndStream_stream_ended r streamID streamID' :
  stream_ended r streamID' → stream_ended (EndStream r streamID).1 streamID'.
Proof.
  destruct (EndStream_effect r streamID) as [->|(st & Hst & He & ->)]; [done|].
  intros Hended. unfold stream_ended. rewrite GetStream_store_stream.
  case_decide; [|done]. eauto.
Qed.

Lemma EndStream_rendition_ended r streamID streamID' renditionID' :
  rendition_ended r streamID' renditionID' →
  rendition_ended (EndStream r streamID).1 streamID' renditionID'.
Proof.
  destruct (EndStream_effect r streamID) as [->|(st & Hst & He & ->)]; [done|].
  intros (rd & Hrd & Hended). unfold rendition_ended.
  rewrite lookup_rendition_store_stream.
  case_decide as Heq; [|eauto]. subst streamID'. simpl.
  unfold lookup_rendition in Hrd. rewrite Hst in Hrd. simpl in Hrd.
  rewrite lookup_fmap, Hrd. simpl. eauto.
Qed.

Lemma step_stream_ended r o streamID :
  stream_ended r streamID → stream_ended (step r o) streamID.
Proof.
  destruct o; simpl;
    auto using RegisterSegment_stream_ended, EndStream_stream_ended.
Qed.

Lemma step_rendition_ended r o streamID renditionID :
  rendition_ended r streamID renditionID →
  rendition_ended (step r o) streamID renditionID.
Proof.
  destruct o; simpl;
    auto using RegisterSegment_rendition_ended, EndStream_rendition_ended.
Qed.

Lemma run_stream_ended r ops streamID :
  stream_ended r streamID → stream_ended (run r ops) streamID.
Proof.
  revert r. induction ops as [|o ops IH]; intros r Hr; simpl; [done|].
  by apply IH, step_stream_ended.
Qed.

Lemma run_rendition_ended r ops streamID renditionID :
  rendition_ended r streamID renditionID →
  rendition_ended (run r ops) streamID renditionID.
Proof.
  revert r. induction ops as [|o ops IH]; intros r Hr; simpl; [done|].
  by apply IH, step_rendition_ended.
Qed.

(** *** Invariants of the reachable states *)

Lemma step_ended_cascades r o : ended_cascades r → ended_cascades (step r o).
Proof.
  intros Hinv. destruct o as [now sid rid seg|sid| |]; simpl; [| |done..].
  - destruct (RegisterSegment_effect now r sid rid seg)
      as [->|(Hs & _ & _ & ->)]; [done|].
    intros sid' st' rid' rd'. rewrite GetStream_store_stream.
    case_decide; [|apply Hinv].
    intros [= <-]. unfold with_segment. simpl. congruence.
  - destruct (EndStream_effect r sid) as [->|(st & Hst & He & ->)]; [done|].
    intros sid' st' rid' rd'. rewrite GetStream_store_stream.
    case_decide; [|apply Hinv].
    intros [= <-] _. simpl. rewrite lookup_fmap.
    destruct (Renditions st !! rid'); simpl; [|done]. by intros [= <-].
Qed.

Lemma lookup_segment_store_stream r streamID stream streamID' renditionID sequence :
  lookup_segment (store_stream r streamID stream) streamID' renditionID sequence
  = if decide (streamID = streamID')
    then rendition ← Renditions stream !! renditionID; Segments rendition !! sequence
    else lookup_segment r streamID' renditionID sequence.
Proof.
  unfold lookup_segment. rewrite lookup_rendition_store_stream. by case_decide.
Qed.

Lemma step_keys_match r o : keys_match r → keys_match (step r o).
Proof.
  intros Hinv. destruct o as [now sid rid seg|sid| |]; simpl; [| |done..].
  - destruct (RegisterSegment_effect now r sid rid seg)
      as [->|(_ & _ & _ & ->)]; [done|].
    intros sid' rid' k seg'. rewrite lookup_segment_store_stream.
    case_decide; [|apply Hinv]. subst sid'.
    unfold with_segment. simpl. rewrite lookup_insert.
    case_decide; simpl.
    + subst rid'. rewrite lookup_insert. case_decide; [by intros [= <-]|].
      rewrite Segments_rendition_or_new. apply Hinv.
    + rewrite Renditions_stream_or_new. apply Hinv.
  - destruct (EndStream_effect r sid) as [->|(st & Hst & He & ->)]; [done|].
    intros sid' rid' k seg'. rewrite lookup_segment_store_stream.
    case_decide; [|apply Hinv]. subst sid'. simpl.
    rewrite lookup_fmap. intros Hk. apply (Hinv sid rid').
    unfold lookup_segment, lookup_rendition. rewrite Hst. simpl.
    by destruct (Renditions st !! rid').
Qed.

Lemma run_snoc r ops o : run r (ops ++ [o]) = step (run r ops) o.
Proof. unfold run. by rewrite foldl_app. Qed.

Lemma reachable_ended_cascades r : reachable r → ended_cascades r.
Proof.
  intros [ops ->]. induction ops as [|o ops IH] using rev_ind.
  - intros sid st rid rd. unfold GetStream. simpl. by rewrite lookup_empty.
  - rewrite run_snoc. by apply step_ended_cascades.
Qed.

Lemma reachable_keys_match r : reachable r → keys_match r.
Proof.
  intros [ops ->]. induction ops as [|o ops IH] using rev_ind.
  - intros sid rid k seg. unfold lookup_segment, lookup_rendition, GetStream.
    simpl. by rewrite lookup_empty.
  - rewrite run_snoc. by apply step_keys_match.
Qed.

(** *** The snapshot *)

Lemma snapshot_sequences (m : gmap Z Segment) :
  let sequences := sort_slice id (map_to_list m).*1 in
  StronglySorted Z.lt sequences ∧
  length sequences = size m ∧
  ∀ seq, seq ∈ sequences ↔ is_Some (m !! seq).
Proof.
  cbn zeta. pose proof (sort_slice_perm id (map_to_list m).*1) as Hp.
  split; [|split].
  - apply StronglySorted_strict.
    + exact (sort_slice_sorted id (map_to_list m).*1).
    + rewrite Hp. apply NoDup_fst_map_to_list.
  - rewrite Hp, length_fmap. apply length_map_to_list.
  - intros seq. rewrite Hp, list_elem_of_fmap. split.
    + intros ([k x] & -> & Hin). apply elem_of_map_to_list in Hin. by eexists.
    + intros [x Hx]. exists (seq, x). split; [done|].
      by apply elem_of_map_to_list.
Qed.

Lemma snapshot_segments_spec (m : gmap Z Segment) :
  (∀ seq seg, m !! seq = Some seg → Sequence seg = seq) →
  (∀ seg, seg ∈ snapshot_segments m ↔ ∃ seq, m !! seq = Some seg) ∧
  length (snapshot_segments m) = size m ∧
  StronglySorted (λ a b, Sequence a < Sequence b) (snapshot_segments m).
Proof.
  intros Hkeys. unfold snapshot_segments. cbn zeta.
  destruct (snapshot_sequences m) as (Hsorted & Hlen & Hdom).
  cbn zeta in Hsorted, Hlen, Hdom.
  set (sequences := sort_slice id (map_to_list m).*1) in *.
  split; [|split].
  - intros seg. rewrite list_elem_of_fmap. split.
    + intros (seq & -> & Hin). apply Hdom in Hin as [x Hx].
      exists seq. by rewrite Hx.
    + intros [seq Hseq]. exists seq. rewrite Hseq. split; [done|].
      apply Hdom. by eexists.
  - by rewrite length_fmap.
  - apply StronglySorted_by_key.
    replace (Sequence <$> ((λ seq, default zero_segment (m !! seq)) <$> sequences))
      with sequences; [done|].
    rewrite <-list_fmap_compose. symmetry.
    rewrite <-(list_fmap_id sequences) at 2. apply list_fmap_ext.
    intros i seq Hin. apply list_elem_of_lookup_2, Hdom in Hin as [x Hx].
    simpl. rewrite Hx. simpl. by apply Hkeys.
Qed.

(** The order in which [for seq := range rendition.Segments] hands out the
    keys does not show in the snapshot: distinct keys have one sorted
    order. *)
Lemma snapshot_order_irrelevant (m : gmap Z Segment) (sequences : list Z) :
  sequences ≡ₚ (map_to_list m).*1 →
  sort_slice id sequences = sort_slice id (map_to_list m).*1.
Proof.
  intros Hp. apply (sorted_perm_unique id).
  - apply (StronglySorted_by_key id). rewrite list_fmap_id.
    apply StronglySorted_strict; [apply (sort_slice_sorted id)|].
    rewrite sort_slice_perm. apply NoDup_fst_map_to_list.
  - apply (sort_slice_sorted id).
  - by rewrite !sort_slice_perm.
Qed.

(** C7. In every state of the repository, [GetRenditionSnapshot] answers
    [ok = false] exactly when the stream or the rendition does not exist;
    otherwise it returns the rendition's ended flag and every registered
    segment of the rendition, each once, in strictly ascending order of
    sequence. *)
Theorem snapshot_found_sorted_complete r streamID renditionID :
  reachable r →
  let '(segments, ended, ok) := GetRenditionSnapshot r streamID renditionID in
  (ok = false ↔
     GetStream r streamID = None ∨
     ∃ stream, GetStream r streamID = Some stream ∧
               Renditions stream !! renditionID = None) ∧
  ∀ stream rendition,
    GetStream r streamID = Some stream →
    Renditions stream !! renditionID = Some rendition →
    ended = RenditionState_Ended rendition ∧
    (∀ seg, seg ∈ segments ↔ ∃ seq, Segments rendition !! seq = Some seg) ∧
    length segments = size (Segments rendition) ∧
    StronglySorted (λ a b, Sequence a < Sequence b) segments.
Proof.
  intros Hreach. apply reachable_keys_match in Hreach.
  unfold GetRenditionSnapshot.
  destruct (GetStream r streamID) as [stream|] eqn:Hstream;
    [|split; [split; [by left|done]|done]].
  destruct (Renditions stream !! renditionID) as [rendition|] eqn:Hrend.
  2: { split; [split; [right; eauto|done]|].
       intros ? ? [= <-]. by rewrite Hrend. }
  assert (∀ seq seg, Segments rendition !! seq = Some seg → Sequence seg = seq)
    as Hkeys.
  { intros seq seg Hseg. apply (Hreach streamID renditionID).
    unfold lookup_segment, lookup_rendition. by rewrite Hstream; simpl; rewrite Hrend. }
  case_bool_decide as Hsize.
  - split.
    { split; [done|]. intros [?|(? & [= <-] & ?)]; congruence. }
    intros ? ? [= <-] Hr. rewrite Hrend in Hr. injection Hr as <-.
    apply map_size_empty_inv in Hsize. rewrite Hsize.
    split; [done|]. split; [|split; [by rewrite map_size_empty|constructor]].
    intros seg. rewrite elem_of_nil. split; [done|].
    intros [seq Hseq]. by rewrite lookup_empty in Hseq.
  - split.
    { split; [done|]. intros [?|(? & [= <-] & ?)]; congruence. }
    intros ? ? [= <-] Hr. rewrite Hrend in Hr. injection Hr as <-.
    split; [done|]. apply (snapshot_segments_spec _ Hkeys).
Qed.

(** C5. In every state reached by any sequence of registry operations an
    ended stream has only ended renditions, and whatever operations follow,
    a stream or rendition that is ended stays ended. *)
Theorem ended_flags_monotonic_and_cascading ops ops' :
  let r := run NewInMemoryStore ops in
  let r' := run r ops' in
  ended_cascades r ∧
  (∀ streamID, stream_ended r streamID → stream_ended r' streamID) ∧
  (∀ streamID renditionID,
     rendition_ended r streamID renditionID →
     rendition_ended r' streamID renditionID).
Proof.
  cbn zeta. split; [|split].
  - apply reachable_ended_cascades. by exists ops.
  - intros streamID. apply run_stream_ended.
  - intros streamID renditionID. apply run_rendition_ended.
Qed.

Lemma EndStream_ends r streamID :
  is_Some (GetStream r streamID) →
  stream_ended (EndStream r streamID).1 streamID.
Proof.
  intros [stream Hstream]. unfold EndStream. rewrite Hstream.
  destruct (StreamState_Ended stream) eqn:Hended; simpl.
  - by exists stream.
  - unfold stream_ended. rewrite GetStream_store_stream.
    rewrite decide_True by done. eauto.
Qed.

Lemma RegisterSegment_ended now r streamID renditionID seg :
  stream_ended r streamID →
  RegisterSegment now r streamID renditionID seg = (r, Some ErrStreamEnded).
Proof.
  intros Hended. rewrite RegisterSegment_unfold. cbn zeta.
  apply Ended_stream_or_new in Hended. by rewrite Hended.
Qed.

Lemma EndStream_ended r streamID :
  stream_ended r streamID → EndStream r streamID = (r, None).
Proof.
  intros (stream & Hstream & Hended). unfold EndStream.
  by rewrite Hstream, Hended.
Qed.

Lemma EndStream_no_error r streamID : (EndStream r streamID).2 = None.
Proof.
  unfold EndStream. destruct (GetStream r streamID) as [stream|]; [|done].
  by destruct (StreamState_Ended stream).
Qed.

(** C6. Once [EndStream] has run on an existing stream, in every later
    state every [RegisterSegment] for that stream fails with
    [ErrStreamEnded] and leaves the store as it is, and a repeated
    [EndStream] is a no-op; [EndStream] on an unknown stream is a no-op; and
    [EndStream] never returns an error. *)
Theorem end_stream_is_terminal r streamID :
  (is_Some (GetStream r streamID) →
   ∀ ops now renditionID seg,
     let r' := run (EndStream r streamID).1 ops in
     RegisterSegment now r' streamID renditionID seg
       = (r', Some ErrStreamEnded) ∧
     EndStream r' streamID = (r', None)) ∧
  (GetStream r streamID = None → EndStream r streamID = (r, None)) ∧
  (EndStream r streamID).2 = None.
Proof.
  split; [|split].
  - intros Hexists ops now renditionID seg. cbn zeta.
    assert (stream_ended (run (EndStream r streamID).1 ops) streamID) as Hended.
    { by apply run_stream_ended, EndStream_ends. }
    split; [by apply RegisterSegment_ended|by apply EndStream_ended].
  - intros Hnone. unfold EndStream. by rewrite Hnone.
  - apply EndStream_no_error.
Qed.

(** *** Duplicates *)

Lemma RegisterSegment_duplicate now r streamID renditionID seg first :
  lookup_segment r streamID renditionID (Sequence seg) = Some first →
  RegisterSegment now r streamID renditionID seg =
    (r, if StreamState_Ended (stream_or_new r streamID)
        then Some ErrStreamEnded
        else if RenditionState_Ended
                  (rendition_or_new (stream_or_new r streamID) renditionID)
             then Some ErrRenditionEnded
             else None).
Proof.
  intros Hfirst. rewrite RegisterSegment_unfold. cbn zeta.
  rewrite Segments_rendition_or_new, Hfirst.
  by repeat case_match.
Qed.

Lemma stream_or_new_store_stream r streamID stream :
  stream_or_new (store_stream r streamID stream) streamID = stream.
Proof.
  unfold stream_or_new. rewrite GetStream_store_stream.
  by rewrite decide_True.
Qed.

Lemma Segments_with_segment now stream renditionID rendition seg :
  Segments (rendition_or_new (with_segment now stream renditionID rendition seg)
              renditionID) !! Sequence seg
  = Some (mkSegment (Sequence seg) (Duration seg) (Path seg) now) ∧
  RenditionState_Ended
    (rendition_or_new (with_segment now stream renditionID rendition seg)
       renditionID)
  = RenditionState_Ended rendition ∧
  StreamState_Ended (with_segment now stream renditionID rendition seg)
  = StreamState_Ended stream.
Proof.
  unfold rendition_or_new, with_segment. simpl.
  rewrite lookup_insert_eq. simpl. by rewrite lookup_insert_eq.
Qed.

Lemma RegisterSegment_twice now now' r streamID renditionID seg seg' :
  Sequence seg' = Sequence seg →
  RegisterSegment now'
    (RegisterSegment now r streamID renditionID seg).1
    streamID renditionID seg'
  = RegisterSegment now r streamID renditionID seg.
Proof.
  intros Hseq.
  rewrite (RegisterSegment_unfold now r). cbn zeta.
  destruct (StreamState_Ended (stream_or_new r streamID)) eqn:Hs.
  { simpl. rewrite RegisterSegment_unfold. cbn zeta. by rewrite Hs. }
  destruct (RenditionState_Ended
              (rendition_or_new (stream_or_new r streamID) renditionID)) eqn:Hr.
  { simpl. rewrite RegisterSegment_unfold. cbn zeta. by rewrite Hs, Hr. }
  destruct (Segments (rendition_or_new (stream_or_new r streamID) renditionID)
              !! Sequence seg) as [first|] eqn:Hseg.
  { simpl. rewrite RegisterSegment_unfold. cbn zeta.
    by rewrite Hs, Hr, Hseq, Hseg. }
  simpl. rewrite RegisterSegment_unfold. cbn zeta.
  rewrite stream_or_new_store_stream.
  destruct (Segments_with_segment now (stream_or_new r streamID) renditionID
              (rendition_or_new (stream_or_new r streamID) renditionID) seg)
    as (Hseg' & Hr' & Hs').
  by rewrite Hs', Hs, Hr', Hr, Hseq, Hseg'.
Qed.

(** C4, as the code has it. Registering a segment whose (stream, rendition,
    sequence) is already registered leaves the store, and so the first
    registration's duration, path and time stamp, as it is in every state;
    it returns no error exactly when neither the stream nor the rendition
    has ended.  In every state, registering the same sequence a second time
    leaves the store as the first registration left it and returns what the
    first returned. *)
Theorem duplicate_registration_noop now now' r streamID renditionID seg seg' :
  Sequence seg' = Sequence seg →
  (∀ first,
     lookup_segment r streamID renditionID (Sequence seg) = Some first →
     let '(r', err) := RegisterSegment now r streamID renditionID seg in
     r' = r ∧
     lookup_segment r' streamID renditionID (Sequence seg) = Some first ∧
     (err = None ↔
        ¬ stream_ended r streamID ∧
        ¬ rendition_ended r streamID renditionID)) ∧
  RegisterSegment now'
    (RegisterSegment now r streamID renditionID seg).1
    streamID renditionID seg'
  = ((RegisterSegment now r streamID renditionID seg).1,
     (RegisterSegment now r streamID renditionID seg).2).
Proof.
  intros Hseq. split.
  - intros first Hfirst.
    rewrite (RegisterSegment_duplicate _ _ _ _ _ _ Hfirst).
    split; [done|]. split; [done|].
    rewrite <-Ended_stream_or_new, <-Ended_rendition_or_new.
    destruct (StreamState_Ended _), (RenditionState_Ended _);
      (split; [intros ?; by split|intros [? ?]; done || congruence]).
  - rewrite (RegisterSegment_twice now now') by done.
    by destruct (RegisterSegment now r streamID renditionID seg).
Qed.

(** ** The renderer *)

Lemma chars_app s1 s2 : chars (s1 +:+ s2) = chars s1 ++ chars s2.
Proof. unfold chars. induction s1 as [|c s1 IH]; simpl; [done|]. by rewrite IH. Qed.

Lemma ends_with_spec ending text :
  ends_with ending text = true ↔ chars ending `suffix_of` chars text.
Proof. unfold ends_with. apply bool_decide_eq_true. Qed.

(** A marker that starts with a separator and has no other: it closes
    [before ++ c :: after] exactly when it closes [c :: after]. *)
Lemma suffix_after_separator {A} (c : A) (marker before after : list A) :
  c ∉ marker →
  (c :: marker) `suffix_of` (before ++ c :: after) ↔
  (c :: marker) `suffix_of` (c :: after).
Proof.
  intros Hc. split; [|apply suffix_app_r].
  intros [k Hk]. apply app_eq_app in Hk as [l [[-> Hl]|[-> Hl]]].
  - destruct l as [|c' l]; simpl in Hl.
    + by rewrite Hl.
    + injection Hl as -> ->. exfalso. apply Hc.
      apply elem_of_app. right. left.
  - by exists l.
Qed.

Lemma write_endlist_true b : write_endlist b true = b +:+ "#EXT-X-ENDLIST" +:+ nl.
Proof. done. Qed.

Lemma BuildLivePlaylist_nonempty segments ended :
  segments ≠ [] →
  BuildLivePlaylist segments ended =
  write_endlist
    (foldl write_segment
       (header_of segments +:+ "#EXT-X-MEDIA-SEQUENCE:"
          +:+ pretty (from_option Sequence 0 (head segments)) +:+ nl +:+ nl)
       segments)
    ended.
Proof. by destruct segments. Qed.

Lemma chars_write_segment b seg :
  chars (write_segment b seg) =
  (chars b ++ chars "#EXTINF:" ++ chars (f64_fmt1 (Duration seg)) ++ chars ",")
    ++ LF :: chars (Path seg) ++ [LF].
Proof.
  unfold write_segment. rewrite !chars_app. change (chars nl) with [LF].
  by rewrite <-!app_assoc.
Qed.

(** The text without the end marker, cut before the last segment's path. *)
Lemma chars_body_last segments seg :
  last segments = Some seg →
  ∃ before,
    chars (BuildLivePlaylist segments false)
    = before ++ LF :: chars (Path seg) ++ [LF].
Proof.
  intros Hlast.
  rewrite BuildLivePlaylist_nonempty by (intros ->; done).
  apply last_Some in Hlast as [init ->].
  simpl. rewrite foldl_app. simpl. rewrite chars_write_segment. eauto.
Qed.

Lemma chars_body_empty :
  chars (BuildLivePlaylist [] false)
  = chars ("#EXTM3U" +:+ nl +:+ "#EXT-X-VERSION:3" +:+ nl
           +:+ "#EXT-X-TARGETDURATION:1" +:+ nl +:+ "#EXT-X-MEDIA-SEQUENCE:0")
    ++ [LF].
Proof. reflexivity. Qed.

Lemma chars_ended segments :
  chars (BuildLivePlaylist segments true)
  = chars (BuildLivePlaylist segments false) ++ chars ("#EXT-X-ENDLIST" +:+ nl).
Proof.
  destruct segments as [|seg0 rest].
  - reflexivity.
  - rewrite !BuildLivePlaylist_nonempty by done. simpl.
    by rewrite chars_app.
Qed.

Lemma BuildLivePlaylist_ended segments :
  BuildLivePlaylist segments true
  = BuildLivePlaylist segments false +:+ "#EXT-X-ENDLIST" +:+ nl.
Proof.
  destruct segments as [|seg0 rest]; [reflexivity|].
  by rewrite !BuildLivePlaylist_nonempty.
Qed.

Lemma LF_not_in_marker : LF ∉ chars "#EXT-X-ENDLIST".
Proof. apply (bool_decide_unpack _). by vm_compute. Qed.

(** When the last line of a rendered playlist reads [#EXT-X-ENDLIST]. *)
Lemma trailing_endlist_iff segments ended :
  has_trailing_endlist (BuildLivePlaylist segments ended) = true ↔
  ended = true ∨
  ∃ seg, last segments = Some seg ∧
         ends_with (nl +:+ "#EXT-X-ENDLIST") (nl +:+ Path seg) = true.
Proof.
  unfold has_trailing_endlist. rewrite ends_with_spec.
  destruct ended.
  - split; [by left|intros _].
    rewrite chars_ended.
    destruct (last segments) as [seg|] eqn:Hlast.
    + destruct (chars_body_last _ _ Hlast) as [before ->].
      exists (before ++ LF :: chars (Path seg)).
      rewrite <-!app_assoc. simpl. rewrite <-!app_assoc. reflexivity.
    + apply last_None in Hlast as ->.
      exists (chars ("#EXTM3U" +:+ nl +:+ "#EXT-X-VERSION:3" +:+ nl
                     +:+ "#EXT-X-TARGETDURATION:1" +:+ nl
                     +:+ "#EXT-X-MEDIA-SEQUENCE:0")).
      reflexivity.
  - destruct (last segments) as [seg|] eqn:Hlast.
    + destruct (chars_body_last _ _ Hlast) as [before ->].
      transitivity (chars (nl +:+ "#EXT-X-ENDLIST") `suffix_of`
                      (before ++ LF :: chars (Path seg))).
      { change (chars (nl +:+ "#EXT-X-ENDLIST" +:+ nl))
          with (chars (nl +:+ "#EXT-X-ENDLIST") ++ [LF]).
        change (before ++ LF :: chars (Path seg) ++ [LF])
          with (before ++ (LF :: chars (Path seg)) ++ [LF]).
        rewrite app_assoc. split; [apply suffix_app_inv|apply suffix_app]. }
      change (chars (nl +:+ "#EXT-X-ENDLIST")) with (LF :: chars "#EXT-X-ENDLIST").
      rewrite (suffix_after_separator LF _ before) by apply LF_not_in_marker.
      split.
      * intros Hsuf. right. exists seg. split; [done|].
        by apply ends_with_spec.
      * intros [?|(seg' & [= <-] & Hsuf)]; [done|].
        by apply ends_with_spec in Hsuf.
    + apply last_None in Hlast as ->. split.
      * intros Hsuf. apply (bool_decide_pack _) in Hsuf.
        by vm_compute in Hsuf.
      * intros [?|(? & ? & _)]; done.
Qed.

(** C8, as the code has it. An empty segment list renders to exactly the
    four lines [#EXTM3U], [#EXT-X-VERSION:3], [#EXT-X-TARGETDURATION:1],
    [#EXT-X-MEDIA-SEQUENCE:0], followed by the line [#EXT-X-ENDLIST] when
    [ended] is true.  For every input the text with [ended = true] is the
    text with [ended = false] followed by the line [#EXT-X-ENDLIST]; and the
    last line of the text reads [#EXT-X-ENDLIST] exactly when [ended] is
    true or the path of the last segment, which is copied as it is, itself
    ends with such a line. *)
Theorem render_empty_and_end_marker :
  BuildLivePlaylist [] false
  = unlines ["#EXTM3U"; "#EXT-X-VERSION:3"; "#EXT-X-TARGETDURATION:1";
             "#EXT-X-MEDIA-SEQUENCE:0"] ∧
  BuildLivePlaylist [] true
  = unlines ["#EXTM3U"; "#EXT-X-VERSION:3"; "#EXT-X-TARGETDURATION:1";
             "#EXT-X-MEDIA-SEQUENCE:0"; "#EXT-X-ENDLIST"] ∧
  ∀ segments ended,
    BuildLivePlaylist segments true
    = BuildLivePlaylist segments false +:+ "#EXT-X-ENDLIST" +:+ nl ∧
    (has_trailing_endlist (BuildLivePlaylist segments ended) = true ↔
     ended = true ∨
     ∃ seg, last segments = Some seg ∧
            ends_with (nl +:+ "#EXT-X-ENDLIST") (nl +:+ Path seg) = true).
Proof.
  split; [reflexivity|]. split; [reflexivity|].
  intros segments ended. split.
  - apply BuildLivePlaylist_ended.
  - apply trailing_endlist_iff.
Qed.

(** ** Registrations on a live rendition *)

Lemma segments_of_lookup r streamID renditionID sequence :
  segments_of r streamID renditionID !! sequence
  = lookup_segment r streamID renditionID sequence.
Proof.
  unfold segments_of, lookup_segment.
  destruct (lookup_rendition r streamID renditionID); simpl;
    [done|apply lookup_empty].
Qed.

Lemma RegisterSegment_live now r streamID renditionID seg :
  live r streamID renditionID →
  let r' := (RegisterSegment now r streamID renditionID seg).1 in
  (RegisterSegment now r streamID renditionID seg).2 = None ∧
  live r' streamID renditionID ∧
  segments_of r' streamID renditionID
  = file_segment (segments_of r streamID renditionID) now seg ∧
  (∃ rendition, lookup_rendition r' streamID renditionID = Some rendition).
Proof.
  intros [Hs Hr]. cbn zeta.
  rewrite <-Ended_stream_or_new in Hs. rewrite <-Ended_rendition_or_new in Hr.
  apply not_true_is_false in Hs, Hr.
  unfold file_segment. rewrite segments_of_lookup.
  rewrite RegisterSegment_unfold. cbn zeta. rewrite Hs, Hr.
  rewrite Segments_rendition_or_new.
  destruct (lookup_segment r streamID renditionID (Sequence seg))
    as [first|] eqn:Hseg; simpl.
  - split; [done|]. split.
    { unfold live. by rewrite <-Ended_stream_or_new, <-Ended_rendition_or_new,
        Hs, Hr. }
    split; [done|].
    unfold lookup_segment in Hseg.
    destruct (lookup_rendition r streamID renditionID); [eauto|done].
  - split; [done|].
    assert (lookup_rendition
              (store_stream r streamID
                 (with_segment now (stream_or_new r streamID) renditionID
                    (rendition_or_new (stream_or_new r streamID) renditionID)
                    seg)) streamID renditionID
            = Some (mkRenditionState
                      (RenditionState_ID
                         (rendition_or_new (stream_or_new r streamID) renditionID))
                      (<[Sequence seg := stamped now seg]>
                         (segments_of r streamID renditionID))
                      false)) as Hlook.
    { rewrite lookup_rendition_store_stream, decide_True by done.
      unfold with_segment. simpl. rewrite lookup_insert_eq, Hr.
      do 2 f_equal. unfold segments_of, rendition_or_new.
      rewrite Renditions_stream_or_new.
      by destruct (lookup_rendition r streamID renditionID). }
    split; [|split; [|eauto]].
    + split.
      * unfold stream_ended. rewrite GetStream_store_stream, decide_True by done.
        intros (? & [= <-] & Hended). unfold with_segment in Hended.
        simpl in Hended. congruence.
      * unfold rendition_ended. rewrite Hlook. by intros (? & [= <-] & ?).
    + unfold segments_of at 1. by rewrite Hlook.
Qed.

Lemma register_all_live r streamID renditionID arrivals :
  live r streamID renditionID →
  let r' := register_all r streamID renditionID arrivals in
  live r' streamID renditionID ∧
  segments_of r' streamID renditionID
  = foldl (λ m '(now, seg), file_segment m now seg)
          (segments_of r streamID renditionID) arrivals ∧
  (arrivals ≠ [] →
   ∃ rendition, lookup_rendition r' streamID renditionID = Some rendition).
Proof.
  cbn zeta. revert r.
  induction arrivals as [|[now seg] arrivals IH] using rev_ind; intros r Hlive.
  - by simpl.
  - unfold register_all in *. rewrite !foldl_app. simpl.
    destruct (IH r Hlive) as (Hlive' & Hsegs & _).
    destruct (RegisterSegment_live now _ streamID renditionID seg Hlive')
      as (_ & Hlive'' & Hsegs' & Hsome).
    split; [done|]. split; [|done].
    by rewrite Hsegs', Hsegs.
Qed.

(** ** The serving path *)

Lemma sort_slice_nil {A} (key : A → Z) : sort_slice key [] = [].
Proof. apply Permutation_nil_r, sort_slice_perm. Qed.

Lemma snapshot_segments_empty : snapshot_segments ∅ = [].
Proof.
  unfold snapshot_segments. cbn zeta. rewrite map_to_list_empty. simpl.
  by rewrite sort_slice_nil.
Qed.

Lemma GetRenditionSnapshot_found r streamID renditionID rendition :
  lookup_rendition r streamID renditionID = Some rendition →
  GetRenditionSnapshot r streamID renditionID
  = (snapshot_segments (Segments rendition),
     RenditionState_Ended rendition, true).
Proof.
  unfold lookup_rendition, GetRenditionSnapshot.
  destruct (GetStream r streamID) as [stream|]; simpl; [|done].
  intros ->. case_bool_decide as Hsize; [|done].
  apply map_size_empty_inv in Hsize.
  by rewrite Hsize, snapshot_segments_empty.
Qed.

Lemma GetPlaylist_found s r streamID renditionID rendition :
  lookup_rendition r streamID renditionID = Some rendition →
  GetPlaylist s r streamID renditionID
  = window ← contiguousVisibleSegments
               (snapshot_segments (Segments rendition)) (windowSize s);
    Returns (BuildLivePlaylist window (RenditionState_Ended rendition), true).
Proof.
  intros Hfound. unfold GetPlaylist.
  by rewrite (GetRenditionSnapshot_found _ _ _ _ Hfound).
Qed.

(** A map filled from a list in strictly ascending order of sequence is
    snapshot as that list. *)
Lemma snapshot_segments_of_list (l : list Segment) :
  StronglySorted (λ a b, Sequence a < Sequence b) l →
  snapshot_segments (list_to_map ((λ seg, (Sequence seg, seg)) <$> l)) = l.
Proof.
  intros Hsorted. unfold snapshot_segments. cbn zeta.
  set (kvs := (λ seg, (Sequence seg, seg)) <$> l).
  assert (kvs.*1 = Sequence <$> l) as Hkeys.
  { unfold kvs. rewrite <-list_fmap_compose. done. }
  assert (StronglySorted Z.lt (Sequence <$> l)) as Hsorted'.
  { clear -Hsorted. induction Hsorted as [|x l' Hl IH Hx]; [constructor|].
    simpl. constructor; [done|]. by rewrite Forall_fmap. }
  assert (NoDup kvs.*1) as Hnodup.
  { rewrite Hkeys. clear -Hsorted'.
    induction Hsorted' as [|x l' Hl IH Hx]; [constructor|].
    constructor; [|done]. rewrite Forall_forall in Hx.
    intros Hin. specialize (Hx _ Hin). lia. }
  assert (sort_slice id (map_to_list (list_to_map kvs : gmap Z Segment)).*1
          = Sequence <$> l) as ->.
  { apply (sorted_perm_unique id).
    - apply (StronglySorted_by_key id). by rewrite list_fmap_id.
    - apply (sort_slice_sorted id).
    - rewrite sort_slice_perm, <-Hkeys. by rewrite map_to_list_to_map. }
  rewrite <-list_fmap_compose. rewrite <-(list_fmap_id l) at 2.
  apply list_fmap_ext. intros i seg Hseg. simpl.
  erewrite (elem_of_list_to_map_1 kvs); [done..|].
  unfold kvs. apply list_elem_of_fmap. exists seg. split; [done|].
  by eapply list_elem_of_lookup_2.
Qed.

(** On its own snapshot the selector does not reorder anything. *)
Lemma visible_of_ascending (l : list Segment) w :
  StronglySorted (λ a b, Sequence a < Sequence b) l →
  len l ≤ int64_max → 0 < w →
  contiguousVisibleSegments l w
  = Returns (contiguous_run (drop (length l - Z.to_nat w) l)).
Proof.
  intros Hsorted Hlen Hw. rewrite visible_positive_window by done.
  unfold candidate_window.
  rewrite (sorted_perm_unique Sequence l (sort_slice Sequence l)); [done..| |].
  - apply (sort_slice_sorted Sequence).
  - apply sort_slice_perm.
Qed.

Lemma NewService_positive w : 0 < w → windowSize (NewService w) = w.
Proof. intros Hw. unfold NewService. simpl. by rewrite bool_decide_false by lia. Qed.

Lemma file_four (d1 d2 d4 d5 : float64) (p1 p2 p4 p5 : string)
    (t1 t2 t4 t5 : Time) :
  foldl (λ m '(now, seg), file_segment m now seg) (∅ : gmap Z Segment)
    [(t1, mkSegment 1 d1 p1 zero_time); (t2, mkSegment 2 d2 p2 zero_time);
     (t4, mkSegment 4 d4 p4 zero_time); (t5, mkSegment 5 d5 p5 zero_time)]
  = list_to_map ((λ seg, (Sequence seg, seg)) <$>
      [mkSegment 1 d1 p1 t1; mkSegment 2 d2 p2 t2;
       mkSegment 4 d4 p4 t4; mkSegment 5 d5 p5 t5]).
Proof. vm_compute. reflexivity. Qed.

Lemma file_fifth (d1 d2 d3 d4 d5 : float64) (p1 p2 p3 p4 p5 : string)
    (t1 t2 t3 t4 t5 : Time) :
  file_segment
    (list_to_map ((λ seg, (Sequence seg, seg)) <$>
       [mkSegment 1 d1 p1 t1; mkSegment 2 d2 p2 t2;
        mkSegment 4 d4 p4 t4; mkSegment 5 d5 p5 t5]))
    t3 (mkSegment 3 d3 p3 zero_time)
  = list_to_map ((λ seg, (Sequence seg, seg)) <$>
      [mkSegment 1 d1 p1 t1; mkSegment 2 d2 p2 t2; mkSegment 3 d3 p3 t3;
       mkSegment 4 d4 p4 t4; mkSegment 5 d5 p5 t5]).
Proof. vm_compute. reflexivity. Qed.

(** C2, as the code has it. With window size 6, on a stream that has not
    ended and a rendition not yet known, after segments 1, 2, 4, 5 are
    registered the playlist is the rendering of exactly the segments 1 and
    2; once segment 3 is registered it is the rendering of all five
    segments 1 to 5. *)
Theorem gap_hides_until_filled r streamID renditionID
    (d1 d2 d3 d4 d5 : float64) (p1 p2 p3 p4 p5 : string)
    (t1 t2 t3 t4 t5 : Time) :
  ¬ stream_ended r streamID →
  lookup_rendition r streamID renditionID = None →
  let arrival := λ sequence d p, mkSegment sequence d p zero_time in
  let r4 :=
    register_all r streamID renditionID
      [(t1, arrival 1 d1 p1); (t2, arrival 2 d2 p2);
       (t4, arrival 4 d4 p4); (t5, arrival 5 d5 p5)] in
  let r5 := (RegisterSegment t3 r4 streamID renditionID (arrival 3 d3 p3)).1 in
  GetPlaylist (NewService 6) r4 streamID renditionID
  = Returns (BuildLivePlaylist
               [mkSegment 1 d1 p1 t1; mkSegment 2 d2 p2 t2] false, true) ∧
  GetPlaylist (NewService 6) r5 streamID renditionID
  = Returns (BuildLivePlaylist
               [mkSegment 1 d1 p1 t1; mkSegment 2 d2 p2 t2;
                mkSegment 3 d3 p3 t3; mkSegment 4 d4 p4 t4;
                mkSegment 5 d5 p5 t5] false, true).
Proof.
  intros Hstream Hfresh. cbv beta zeta.
  assert (live r streamID renditionID) as Hlive.
  { split; [done|]. unfold rendition_ended. rewrite Hfresh.
    by intros (? & ? & _). }
  set (arrivals := [(t1, mkSegment 1 d1 p1 zero_time); _; _; _]).
  destruct (register_all_live r streamID renditionID arrivals Hlive)
    as (Hlive4 & Hsegs4 & Hsome4).
  destruct Hsome4 as [rd4 Hrd4]; [done|].
  set (r4 := register_all r streamID renditionID arrivals) in *.
  destruct (RegisterSegment_live t3 r4 streamID renditionID
              (mkSegment 3 d3 p3 zero_time) Hlive4)
    as (_ & Hlive5 & Hsegs5 & [rd5 Hrd5]).
  set (r5 := (RegisterSegment t3 r4 streamID renditionID _).1) in *.
  unfold segments_of in Hsegs4, Hsegs5. rewrite Hrd4 in Hsegs4, Hsegs5.
  rewrite Hrd5 in Hsegs5. rewrite Hfresh in Hsegs4.
  cbn [from_option] in Hsegs4, Hsegs5.
  assert (RenditionState_Ended rd4 = false) as Hended4.
  { apply not_true_is_false. intros Hended. apply Hlive4. by exists rd4. }
  assert (RenditionState_Ended rd5 = false) as Hended5.
  { apply not_true_is_false. intros Hended. apply Hlive5. by exists rd5. }
  subst arrivals. rewrite file_four in Hsegs4.
  rewrite Hsegs4, file_fifth in Hsegs5.
  rewrite (GetPlaylist_found _ _ _ _ _ Hrd4), Hended4, Hsegs4.
  rewrite (GetPlaylist_found _ _ _ _ _ Hrd5), Hended5, Hsegs5.
  rewrite !snapshot_segments_of_list by (repeat constructor; simpl; lia).
  rewrite NewService_positive by done.
  rewrite !visible_of_ascending
    by (done || (repeat constructor; simpl; lia)).
  split; reflexivity.
Qed.

(** ** The two selectors *)

Lemma targetDuration_ext l1 l2 :
  Duration <$> l1 = Duration <$> l2 →
  targetDurationFromSegments l1 = targetDurationFromSegments l2.
Proof.
  intros Heq. unfold targetDurationFromSegments, max_duration.
  assert (∀ l z,
    foldl (λ max seg, if f64_gt (Duration seg) max then Duration seg else max) z l
    = foldl (λ max d, if f64_gt d max then d else max) z (Duration <$> l)) as Hfold.
  { induction l as [|x l IH]; intros z; simpl; [done|]. apply IH. }
  by rewrite (Hfold l1), (Hfold l2), Heq.
Qed.

Lemma playlists_differ :
  BuildLivePlaylist [plain 5; plain 6] false
  ≠ BuildLivePlaylist [plain 2; plain 3] false.
Proof.
  rewrite !BuildLivePlaylist_nonempty by done.
  unfold header_of.
  rewrite (targetDuration_ext [plain 5; plain 6] [plain 2; plain 3]) by done.
  intros Heq. apply (f_equal chars) in Heq.
  cbn [foldl write_endlist head from_option] in Heq.
  rewrite !chars_write_segment, !chars_app in Heq.
  rewrite <-!app_assoc in Heq.
  repeat apply app_inv_head in Heq.
  apply (f_equal head) in Heq. vm_compute in Heq. discriminate Heq.
Qed.

Lemma file_gapped :
  foldl (λ m '(now, seg), file_segment m now seg) (∅ : gmap Z Segment)
    ((λ seg, (zero_time, seg)) <$> gapped)
  = list_to_map ((λ seg, (Sequence seg, seg)) <$> gapped).
Proof. vm_compute. reflexivity. Qed.

(** Window size 0 gives an empty window, and the history-anchored selector
    answers every non-positive window size with an empty window; but
    [contiguousVisibleSegments] on a one-element slice and window size -1
    computes [start = 2 > len(segs)] and panics in [segs[start:]]. *)
Lemma one_segment_negative_window :
  contiguousVisibleSegments [plain 1] (-1) = Panics ∧
  contiguousVisibleSegments [plain 1] 0 = Returns [] ∧
  contiguousSlidingWindow [plain 1] (-1) = Returns [] ∧
  contiguousSlidingWindow [plain 1] 0 = Returns [].
Proof.
  split; [|split; [|split; reflexivity]].
  - apply visible_window_negative_panics; [done|by vm_compute|].
    unfold int64_min. lia.
  - apply visible_window_zero. by vm_compute.
Qed.

(** C3, as the code has it. A direct call of [contiguousVisibleSegments]
    with window size 0, or with any window size on an empty slice, returns
    no segment; with a negative window size on a non-empty slice it panics.
    Non-positive sizes are dealt with where the service is made:
    [NewService] replaces each by [DefaultWindowSize], so the size
    [GetPlaylist] passes to the selector is positive and that call
    returns. *)
Theorem nonpositive_window_guarded_at_construction segs w :
  len segs ≤ int64_max → int64_min ≤ w ≤ 0 →
  (w = 0 → contiguousVisibleSegments segs w = Returns []) ∧
  (segs = [] → contiguousVisibleSegments segs w = Returns []) ∧
  (w < 0 → segs ≠ [] → contiguousVisibleSegments segs w = Panics) ∧
  windowSize (NewService w) = DefaultWindowSize ∧
  ∃ visible,
    contiguousVisibleSegments segs (windowSize (NewService w))
    = Returns visible.
Proof.
  intros Hlen [Hmin Hmax]. split_and!.
  - intros ->. by apply visible_window_zero.
  - by intros ->.
  - intros Hneg Hne. by apply visible_window_negative_panics.
  - unfold NewService. simpl. by rewrite bool_decide_true.
  - unfold NewService, DefaultWindowSize. simpl.
    rewrite bool_decide_true by done.
    rewrite visible_positive_window by (done || lia). by eexists.
Qed.

(** C9. The history-anchored [contiguousSlidingWindow] and the live-edge
    [contiguousVisibleSegments] disagree on a sorted input with segments
    beyond a gap and a positive window size; and [GetPlaylist] renders what
    the live-edge selector returns: on a store holding that input its answer
    is the rendering of the live-edge window and not the rendering of the
    history-anchored one. *)
Theorem selectors_differ_live_edge_served :
  (∃ historic current,
     sorted_by_sequence gapped ∧ go_slice gapped ∧
     contiguousSlidingWindow gapped 2 = Returns historic ∧
     contiguousVisibleSegments gapped 2 = Returns current ∧
     historic = [plain 2; plain 3] ∧
     current = [plain 5; plain 6] ∧
     historic ≠ current ∧
     let r := register_all NewInMemoryStore "s1" "720p"
                ((λ seg, (zero_time, seg)) <$> gapped) in
     (GetRenditionSnapshot r "s1" "720p").1.1 = gapped ∧
     GetPlaylist (NewService 2) r "s1" "720p"
     = Returns (BuildLivePlaylist current false, true) ∧
     BuildLivePlaylist current false ≠ BuildLivePlaylist historic false) ∧
  (∀ s r streamID renditionID,
     GetPlaylist s r streamID renditionID =
     let '(segments, ended, ok) := GetRenditionSnapshot r streamID renditionID in
     if ok
     then window ← contiguousVisibleSegments segments (windowSize s);
          Returns (BuildLivePlaylist window ended, true)
     else Returns ("", false)).
Proof.
  assert (StronglySorted (λ a b, Sequence a < Sequence b) gapped) as Hstrict.
  { unfold gapped. repeat constructor; simpl; lia. }
  assert (contiguousVisibleSegments gapped 2 = Returns [plain 5; plain 6])
    as Hcurrent.
  { by rewrite visible_of_ascending. }
  split.
  - exists [plain 2; plain 3], [plain 5; plain 6].
    split; [unfold gapped; repeat constructor; simpl; lia|].
    split; [split; [unfold gapped; repeat constructor; by vm_compute|by vm_compute]|].
    split; [reflexivity|]. split; [done|]. split; [done|]. split; [done|].
    split; [by intros [= ?]|]. cbn zeta.
    set (arrivals := (λ seg, (zero_time, seg)) <$> gapped).
    assert (live NewInMemoryStore "s1" "720p") as Hlive.
    { split; [intros (? & Hs & _)|intros (? & Hs & _)];
        by unfold lookup_rendition, GetStream in Hs; simpl in Hs;
           rewrite lookup_empty in Hs. }
    destruct (register_all_live _ "s1" "720p" arrivals Hlive)
      as (Hlive' & Hsegs & Hsome).
    destruct Hsome as [rd Hrd]; [done|].
    set (r := register_all NewInMemoryStore "s1" "720p" arrivals) in *.
    unfold segments_of in Hsegs. rewrite Hrd in Hsegs.
    change (lookup_rendition NewInMemoryStore "s1" "720p") with (@None RenditionState) in Hsegs.
    cbn [from_option] in Hsegs.
    assert (RenditionState_Ended rd = false) as Hended.
    { apply not_true_is_false. intros Hended. apply Hlive'.
      exists rd. split; [exact Hrd|exact Hended]. }
    assert (snapshot_segments (Segments rd) = gapped) as Hsnap.
    { rewrite Hsegs. subst arrivals. rewrite file_gapped.
      by apply snapshot_segments_of_list. }
    split; [|split].
    + by rewrite (GetRenditionSnapshot_found _ _ _ _ Hrd).
    + rewrite (GetPlaylist_found _ _ _ _ _ Hrd), Hended, Hsnap.
      rewrite NewService_positive by done. by rewrite Hcurrent.
    + apply playlists_differ.
  - intros s r streamID renditionID. unfold GetPlaylist.
    destruct (GetRenditionSnapshot r streamID renditionID) as [[segments ended] ok].
    by destruct ok.
Qed.

(** ** Further properties of the registry and the serving path *)

Lemma file_segment_union (m entries' : gmap Z Segment) now seg :
  file_segment m now seg ∪ entries'
  = m ∪ <[Sequence seg := stamped now seg]> entries'.
Proof.
  unfold file_segment.
  destruct (m !! Sequence seg) as [first|] eqn:Hfirst.
  - apply map_eq. intros k. rewrite !lookup_union.
    destruct (decide (k = Sequence seg)) as [->|Hne].
    + rewrite Hfirst, lookup_insert_eq. by destruct (entries' !! Sequence seg).
    + by rewrite lookup_insert_ne.
  - by rewrite <-insert_union_l, insert_union_r.
Qed.

(** Registrations accumulate as a union in which the first entry of a
    sequence number wins. *)
Lemma register_all_union r streamID renditionID arrivals :
  live r streamID renditionID →
  segments_of (register_all r streamID renditionID arrivals) streamID renditionID
  = segments_of r streamID renditionID ∪ list_to_map (entries arrivals).
Proof.
  intros Hlive.
  destruct (register_all_live r streamID renditionID arrivals Hlive)
    as (_ & -> & _).
  generalize (segments_of r streamID renditionID). clear.
  induction arrivals as [|[now seg] arrivals IH]; intros m; simpl.
  - by rewrite (right_id_L ∅ (∪)).
  - rewrite IH. apply file_segment_union.
Qed.

Lemma register_all_rendition r streamID renditionID arrivals :
  live r streamID renditionID → arrivals ≠ [] →
  ∃ rendition,
    lookup_rendition (register_all r streamID renditionID arrivals)
      streamID renditionID = Some rendition ∧
    RenditionState_Ended rendition = false ∧
    Segments rendition
    = segments_of r streamID renditionID ∪ list_to_map (entries arrivals).
Proof.
  intros Hlive Hne.
  pose proof (register_all_union r streamID renditionID arrivals Hlive) as Hsegs.
  destruct (register_all_live r streamID renditionID arrivals Hlive)
    as ([_ Hended] & _ & Hsome).
  destruct (Hsome Hne) as [rendition Hrendition].
  exists rendition. split; [done|]. split.
  - apply not_true_is_false. intros Htrue. apply Hended. by exists rendition.
  - unfold segments_of at 1 in Hsegs. by rewrite Hrendition in Hsegs.
Qed.

(** A service made by [NewService] never panics in [GetPlaylist]: whatever
    window size it was asked for, the one it passes to the selector is
    positive. *)
Theorem serving_path_never_panics w r streamID renditionID :
  (∀ rendition,
     lookup_rendition r streamID renditionID = Some rendition →
     Z.of_nat (size (Segments rendition)) ≤ int64_max) →
  0 < windowSize (NewService w) ∧
  ∃ answer, GetPlaylist (NewService w) r streamID renditionID = Returns answer.
Proof.
  intros Hsize.
  assert (0 < windowSize (NewService w)) as Hpos.
  { unfold NewService, DefaultWindowSize. simpl. case_bool_decide; lia. }
  split; [done|].
  destruct (lookup_rendition r streamID renditionID) as [rendition|] eqn:Hrd.
  - rewrite (GetPlaylist_found _ _ _ _ _ Hrd).
    rewrite visible_positive_window; [by eexists| |done].
    specialize (Hsize rendition eq_refl).
    destruct (snapshot_sequences (Segments rendition)) as (_ & Hlen & _).
    cbn zeta in Hlen. unfold len, snapshot_segments. cbn zeta.
    rewrite length_fmap, Hlen. done.
  - unfold GetPlaylist, GetRenditionSnapshot.
    unfold lookup_rendition in Hrd.
    destruct (GetStream r streamID) as [stream|]; simpl in *.
    + rewrite Hrd. by eexists.
    + by eexists.
Qed.

Lemma step_nothing_empty r o : nothing_empty r → nothing_empty (step r o).
Proof.
  intros Hinv. destruct o as [now sid rid seg|sid| |]; simpl; [| |done..].
  - destruct (RegisterSegment_effect now r sid rid seg)
      as [->|(_ & _ & _ & ->)]; [done|].
    intros sid' st'. rewrite GetStream_store_stream.
    case_decide; [|apply Hinv]. intros [= <-]. unfold with_segment. simpl.
    split; [apply insert_non_empty|].
    intros rid' rd'. rewrite lookup_insert. case_decide.
    + intros [= <-]. simpl. apply insert_non_empty.
    + unfold stream_or_new.
      destruct (GetStream r sid) as [st|] eqn:Hst; simpl.
      * apply (Hinv sid st Hst).
      * by rewrite lookup_empty.
  - destruct (EndStream_effect r sid) as [->|(st & Hst & He & ->)]; [done|].
    intros sid' st'. rewrite GetStream_store_stream.
    case_decide; [|apply Hinv]. intros [= <-]. simpl.
    destruct (Hinv sid st Hst) as [Hne Hsegs]. split.
    + by rewrite fmap_empty_iff.
    + intros rid' rd'. rewrite lookup_fmap.
      destruct (Renditions st !! rid') as [rd|] eqn:Hrd; simpl; [|done].
      intros [= <-]. simpl. by apply (Hsegs rid').
Qed.

(** Lazy creation. In every state the repository can reach, a stream exists
    only with a rendition and a rendition only with a segment: both are
    created by the registration that files their first segment. *)
Theorem reachable_nothing_empty r : reachable r → nothing_empty r.
Proof.
  intros [ops ->]. induction ops as [|o ops IH] using rev_ind.
  - intros sid st. unfold GetStream. simpl. by rewrite lookup_empty.
  - rewrite run_snoc. by apply step_nothing_empty.
Qed.

(** * The rest of the package *)

(** ** The history-anchored selector *)

Lemma contiguous_run_no_gap l :
  sorted_by_sequence l → Forall (λ s, in_int64 (Sequence s)) l →
  no_gap (contiguous_run l).
Proof.
  intros Hsorted Hrange i a b Ha Hb.
  destruct (contiguous_run_prefix l) as [k Hk].
  assert (sorted_by_sequence (contiguous_run l)) as Hsorted'.
  { unfold sorted_by_sequence in *. rewrite Hk in Hsorted.
    by apply StronglySorted_app in Hsorted as (_ & ? & _). }
  apply wrap64_succ_ge.
  - rewrite Forall_forall in Hrange. apply Hrange.
    eapply elem_of_prefix; [|apply contiguous_run_prefix].
    by eapply list_elem_of_lookup_2.
  - by eapply contiguous_run_adjacent.
  - eapply (StronglySorted_lookup_lt
              (λ x y : Segment, Sequence x ≤ Sequence y) _ i (i + 1));
      [exact Hsorted'|lia|done..].
Qed.

Lemma no_gap_drop l n : no_gap l → no_gap (drop n l).
Proof.
  intros Hgap i a b. rewrite !lookup_drop.
  replace (n + (i + 1))%nat with (n + i + 1)%nat by lia. apply Hgap.
Qed.

(** A run without a gap passes the scan whole. *)
Lemma contiguous_run_id l :
  no_gap l → Forall (λ s, in_int64 (Sequence s)) l → contiguous_run l = l.
Proof.
  intros Hgap Hrange. destruct l as [|s0 rest]; [done|]. simpl. f_equal.
  revert s0 Hgap Hrange. induction rest as [|s rest IH]; intros s0 Hgap Hrange;
    [done|]. simpl.
  assert (Sequence s = Sequence s0 + 1) as Hstep by (by apply (Hgap 0%nat)).
  apply Forall_cons in Hrange as [Hs0 Hrange].
  pose proof Hrange as Hrange'. apply Forall_cons in Hrange' as [Hs _].
  rewrite bool_decide_false.
  - f_equal. apply IH; [|done]. intros i a b. apply (Hgap (S i)).
  - rewrite wrap64_id; [lia|]. unfold in_int64 in *. lia.
Qed.

Lemma sliding_positive_window segs w :
  0 < w ≤ max_segment_cap → len segs ≤ int64_max →
  contiguousSlidingWindow segs w
  = Returns (drop (length (contiguous_run segs) - Z.to_nat w)
               (contiguous_run segs)).
Proof.
  intros [Hw Hcap] Hlen. unfold contiguousSlidingWindow.
  rewrite (bool_decide_false (w ≤ 0)) by lia. simpl.
  case_bool_decide as Hempty.
  { destruct segs; [done|]. unfold len in Hempty. simpl in Hempty. lia. }
  unfold make_segments_ok. rewrite bool_decide_true by lia. cbn [negb].
  pose proof (prefix_length _ _ (contiguous_run_prefix segs)) as Hrun.
  cbn zeta. unfold len in *. case_bool_decide as Hcmp.
  - rewrite wrap64_id by (unfold in_int64, int64_min, int64_max in *; lia).
    unfold slice_from, len. rewrite bool_decide_true by lia.
    do 2 f_equal. lia.
  - do 2 f_equal.
    replace (length (contiguous_run segs) - Z.to_nat w)%nat with 0%nat by lia.
    done.
Qed.

Lemma modest_window w : 0 < w ≤ modest_capacity → 0 < w ≤ max_segment_cap.
Proof.
  assert (modest_capacity ≤ max_segment_cap) by by vm_compute. lia.
Qed.


(** The two selectors agree where there is nothing to choose: on a slice
    without a gap and a window size from 1 to [modest_capacity] both return
    its last [windowSize] elements. *)
Theorem selectors_agree_without_gap segs w :
  no_gap segs → go_slice segs → 0 < w ≤ modest_capacity →
  contiguousSlidingWindow segs w
  = Returns (drop (length segs - Z.to_nat w) segs) ∧
  contiguousVisibleSegments segs w
  = Returns (drop (length segs - Z.to_nat w) segs).
Proof.
  intros Hgap [Hrange Hlen] Hw. apply modest_window in Hw. split.
  - rewrite sliding_positive_window by done.
    by rewrite contiguous_run_id.
  - rewrite visible_of_ascending; [|by apply no_gap_increasing|done|lia].
    rewrite contiguous_run_id; [done|by apply no_gap_drop|].
    by apply Forall_drop.
Qed.

(** ** The renderer, line by line *)

Lemma max_duration_bounds ordinary segments :
  ordinary_durations ordinary →
  Forall (λ seg, ordinary (Duration seg)) segments →
  ordinary (max_duration segments) ∧
  f64_le f64_zero (max_duration segments) = true ∧
  Forall (λ seg, f64_le (Duration seg) (max_duration segments) = true) segments.
Proof.
  intros (Hzero & Hgt & Htotal & Htrans & _) Hall. unfold max_duration.
  assert (∀ a, ordinary a → f64_le a a = true) as Hrefl.
  { intros a Ha. by destruct (Htotal a a Ha Ha). }
  cut (∀ acc, ordinary acc →
         let m := foldl (λ max seg, if f64_gt (Duration seg) max
                                    then Duration seg else max) acc segments in
         ordinary m ∧ f64_le acc m = true ∧
         Forall (λ seg, f64_le (Duration seg) m = true) segments).
  { intros Hcut. by apply Hcut. }
  induction Hall as [|seg segments Hseg Hall IH]; intros acc Hacc; simpl.
  - auto.
  - rewrite (Hgt _ _ Hseg Hacc).
    destruct (f64_le (Duration seg) acc) eqn:Hle; simpl.
    + destruct (IH acc Hacc) as (Hm & Hacc_m & Hrest).
      split; [done|]. split; [done|]. constructor; [|done].
      by apply (Htrans _ acc).
    + destruct (IH (Duration seg) Hseg) as (Hm & Hseg_m & Hrest).
      split; [done|]. split; [|by constructor].
      apply (Htrans _ (Duration seg)); [done..| |done].
      destruct (Htotal acc (Duration seg) Hacc Hseg); congruence.
Qed.

(** [targetDurationFromSegments] on durations that are ordinary numbers:
    the target duration is at least 1 and at least the rounded-up duration
    of every segment. *)
Theorem target_duration_covers_segments ordinary segments :
  ordinary_durations ordinary →
  Forall (λ seg, ordinary (Duration seg)) segments →
  1 ≤ targetDurationFromSegments segments ∧
  Forall (λ seg, f64_ceil_int (Duration seg)
                 ≤ targetDurationFromSegments segments) segments.
Proof.
  intros Hlaws Hall.
  destruct (max_duration_bounds ordinary segments Hlaws Hall)
    as (Hm & Hzero_m & Hbound).
  destruct Hlaws as (Hzero & _ & _ & Htrans & Hmono & Hceil0 & Hpos).
  unfold targetDurationFromSegments. cbn zeta.
  destruct (f64_le (max_duration segments) f64_zero) eqn:Hle.
  - split; [lia|]. rewrite Forall_forall in Hbound, Hall |- *.
    intros seg Hin.
    assert (f64_ceil_int (Duration seg) ≤ f64_ceil_int f64_zero); [|lia].
    apply Hmono; [by apply Hall|done|].
    apply (Htrans _ (max_duration segments)); auto.
  - split; [by apply Hpos|]. rewrite Forall_forall in Hbound, Hall |- *.
    intros seg Hin. apply Hmono; auto.
Qed.

Lemma string_app_assoc (s1 s2 s3 : string) :
  (s1 +:+ s2) +:+ s3 = s1 +:+ s2 +:+ s3.
Proof. induction s1 as [|c s1 IH]; [done|]. simpl. unfold String.app in *. simpl. by rewrite IH. Qed.

Lemma string_app_nil_r (s : string) : s +:+ "" = s.
Proof. induction s as [|c s IH]; [done|]. unfold String.app in *. simpl. by rewrite IH. Qed.

Lemma unlines_app l1 l2 : unlines (l1 ++ l2) = unlines l1 +:+ unlines l2.
Proof.
  induction l1 as [|line l1 IH]; simpl; [done|].
  by rewrite IH, !string_app_assoc.
Qed.

Lemma foldl_write_segment b segments :
  foldl write_segment b segments
  = b +:+ unlines (segments ≫= segment_lines).
Proof.
  revert b. induction segments as [|seg segments IH]; intros b; simpl.
  - by rewrite string_app_nil_r.
  - rewrite IH. unfold write_segment. by rewrite !string_app_assoc.
Qed.

Lemma write_endlist_lines b ended :
  write_endlist b ended
  = b +:+ unlines (if ended then ["#EXT-X-ENDLIST"] else []).
Proof.
  destruct ended; simpl; [|by rewrite string_app_nil_r].
  by rewrite string_app_nil_r.
Qed.

(** The text [BuildLivePlaylist] builds is, for every input, the lines of
    [playlist_lines], each closed by a line feed: the header, the version,
    the target duration, the media sequence (the sequence of the first
    segment, 0 without one), an empty line when there is a segment, two
    lines per segment in the order given, and [#EXT-X-ENDLIST] when ended. *)
Theorem playlist_is_its_lines segments ended :
  BuildLivePlaylist segments ended = unlines (playlist_lines segments ended).
Proof.
  unfold playlist_lines. rewrite unlines_app.
  destruct segments as [|seg0 rest].
  - unfold BuildLivePlaylist. cbn zeta. rewrite write_endlist_lines.
    f_equal.
  - rewrite BuildLivePlaylist_nonempty by done.
    rewrite write_endlist_lines, foldl_write_segment, unlines_app.
    unfold header_of. simpl head. cbn [from_option].
    generalize (unlines ((seg0 :: rest) ≫= segment_lines)).
    generalize (unlines (if ended then ["#EXT-X-ENDLIST"] else [])).
    intros tail body. unfold unlines. cbn [foldr].
    rewrite !string_app_assoc. reflexivity.
Qed.

(** ** The registry, operation by operation *)

Lemma RegisterSegment_accepts now r streamID renditionID seg :
  ((RegisterSegment now r streamID renditionID seg).2 = None
     ↔ live r streamID renditionID) ∧
  ((RegisterSegment now r streamID renditionID seg).2 ≠ None →
   (RegisterSegment now r streamID renditionID seg).1 = r).
Proof.
  unfold live.
  rewrite <-Ended_stream_or_new, <-Ended_rendition_or_new.
  rewrite RegisterSegment_unfold. cbn zeta.
  destruct (StreamState_Ended (stream_or_new r streamID)); simpl;
    [split; [split; [done|by intros [? _]]|done]|].
  destruct (RenditionState_Ended
              (rendition_or_new (stream_or_new r streamID) renditionID)); simpl;
    [split; [split; [done|by intros [_ ?]]|done]|].
  destruct (Segments _ !! _); simpl; (split; [split; [|done]|done]);
    by intros _; split.
Qed.

(** What [RegisterSegment] answers and does, in every state of the store:
    [ErrStreamEnded] exactly when the stream has ended, [ErrRenditionEnded]
    exactly when the stream has not but the rendition has, no error exactly
    when neither has; with an error the store is as it was; without one the
    rendition exists and holds what it held, and the segment stamped with
    the time of the call unless its sequence was already filed. *)
Theorem registration_outcome now r streamID renditionID seg :
  let r' := (RegisterSegment now r streamID renditionID seg).1 in
  let err := (RegisterSegment now r streamID renditionID seg).2 in
  (err = Some ErrStreamEnded ↔ stream_ended r streamID) ∧
  (err = Some ErrRenditionEnded ↔
     ¬ stream_ended r streamID ∧ rendition_ended r streamID renditionID) ∧
  (err = None ↔ live r streamID renditionID) ∧
  (err ≠ None → r' = r) ∧
  (err = None →
     is_Some (lookup_rendition r' streamID renditionID) ∧
     segments_of r' streamID renditionID
     = file_segment (segments_of r streamID renditionID) now seg).
Proof.
  cbn zeta.
  pose proof (Ended_stream_or_new r streamID) as Hs.
  pose proof (Ended_rendition_or_new r streamID renditionID) as Hr.
  destruct (StreamState_Ended (stream_or_new r streamID)) eqn:Hse.
  { assert (stream_ended r streamID) as Hended by by apply Hs.
    rewrite (RegisterSegment_ended _ _ _ _ _ Hended). simpl. unfold live.
    repeat split; try done; try tauto. }
  assert (¬ stream_ended r streamID) as Hnot by (rewrite <-Hs; congruence).
  destruct (RenditionState_Ended
              (rendition_or_new (stream_or_new r streamID) renditionID)) eqn:Hre.
  { assert (rendition_ended r streamID renditionID) as Hended by by apply Hr.
    rewrite RegisterSegment_unfold. cbn zeta. rewrite Hse, Hre. simpl.
    unfold live. repeat split; try done; try tauto. }
  assert (¬ rendition_ended r streamID renditionID) as Hnot'
    by (rewrite <-Hr; congruence).
  destruct (RegisterSegment_live now r streamID renditionID seg (conj Hnot Hnot'))
    as (Herr & _ & Hsegs & rendition & Hrendition).
  rewrite Herr. unfold live.
  repeat split; try done; try tauto.
Qed.

(** What [RegisterSegment] leaves alone: the ended flag of every stream and
    of every rendition, every other stream, and every segment but the one
    filed under the stream, rendition and sequence of the call. *)
Theorem registration_frame now r streamID renditionID seg streamID' renditionID' :
  let r' := (RegisterSegment now r streamID renditionID seg).1 in
  (stream_ended r' streamID' ↔ stream_ended r streamID') ∧
  (rendition_ended r' streamID' renditionID'
     ↔ rendition_ended r streamID' renditionID') ∧
  (∀ sequence,
     (streamID', renditionID', sequence) ≠ (streamID, renditionID, Sequence seg) →
     lookup_segment r' streamID' renditionID' sequence
     = lookup_segment r streamID' renditionID' sequence).
Proof.
  cbn zeta.
  destruct (RegisterSegment_effect now r streamID renditionID seg)
    as [->|(Hs & Hr & _ & ->)]; [done|].
  split; [|split].
  - unfold stream_ended at 1. rewrite GetStream_store_stream.
    case_decide as Heq; [|done]. subst streamID'.
    rewrite <-Ended_stream_or_new, Hs. split; [|done].
    intros (? & [= <-] & Hended). unfold with_segment in Hended. simpl in Hended.
    congruence.
  - unfold rendition_ended at 1. rewrite lookup_rendition_store_stream.
    case_decide as Heq; [|done]. subst streamID'.
    unfold with_segment. simpl. rewrite lookup_insert.
    case_decide as Heq'.
    + subst renditionID'. rewrite <-Ended_rendition_or_new, Hr.
      split; [|done]. by intros (? & [= <-] & ?).
    + by rewrite Renditions_stream_or_new.
  - intros sequence Hother. rewrite lookup_segment_store_stream.
    case_decide as Heq; [|done]. subst streamID'.
    unfold with_segment. simpl. rewrite lookup_insert.
    case_decide as Heq'; simpl.
    + subst renditionID'. rewrite lookup_insert_ne by congruence.
      by rewrite Segments_rendition_or_new.
    + by rewrite Renditions_stream_or_new.
Qed.

Lemma step_ends_with_stream r o : ends_with_stream r → ends_with_stream (step r o).
Proof.
  intros Hinv. destruct o as [now sid rid seg|sid| |]; simpl; [| |done..].
  - destruct (RegisterSegment_effect now r sid rid seg)
      as [->|(Hs & Hr & _ & ->)]; [done|].
    intros sid' st' rid' rd'. rewrite GetStream_store_stream.
    case_decide; [|apply Hinv].
    intros [= <-]. unfold with_segment. simpl. rewrite lookup_insert.
    case_decide.
    + intros [= <-]. simpl. congruence.
    + unfold stream_or_new in *.
      destruct (GetStream r sid) as [st|] eqn:Hst; simpl in *.
      * intros Hrd Hended. by apply (Hinv sid st rid' rd').
      * by rewrite lookup_empty.
  - destruct (EndStream_effect r sid) as [->|(st & Hst & He & ->)]; [done|].
    intros sid' st' rid' rd'. rewrite GetStream_store_stream.
    case_decide; [|apply Hinv]. by intros [= <-].
Qed.

Lemma reachable_ends_with_stream r : reachable r → ends_with_stream r.
Proof.
  intros [ops ->]. induction ops as [|o ops IH] using rev_ind.
  - intros sid st rid rd. unfold GetStream. simpl. by rewrite lookup_empty.
  - rewrite run_snoc. by apply step_ends_with_stream.
Qed.

(** In every state the repository can reach, a rendition that exists is
    ended exactly when its stream is: [EndStream] is the only writer of
    either flag.  So [RegisterSegment] never returns [ErrRenditionEnded]. *)
Theorem rendition_ends_with_its_stream r streamID renditionID :
  reachable r →
  (∀ rendition,
     lookup_rendition r streamID renditionID = Some rendition →
     (RenditionState_Ended rendition = true ↔ stream_ended r streamID)) ∧
  ∀ now seg,
    (RegisterSegment now r streamID renditionID seg).2 ≠ Some ErrRenditionEnded.
Proof.
  intros Hreach.
  pose proof (reachable_ends_with_stream r Hreach) as Hup.
  pose proof (reachable_ended_cascades r Hreach) as Hdown.
  assert (∀ rendition,
            lookup_rendition r streamID renditionID = Some rendition →
            (RenditionState_Ended rendition = true ↔ stream_ended r streamID))
    as Hiff.
  { intros rendition. unfold lookup_rendition, stream_ended.
    destruct (GetStream r streamID) as [stream|] eqn:Hstream; simpl; [|done].
    intros Hrendition. split.
    - intros Hended. exists stream. split; [done|].
      by apply (Hup streamID stream renditionID rendition).
    - intros (? & [= <-] & Hended).
      by apply (Hdown streamID stream renditionID rendition). }
  split; [done|]. intros now seg.
  rewrite RegisterSegment_unfold. cbn zeta.
  destruct (StreamState_Ended (stream_or_new r streamID)) eqn:Hs; [done|].
  destruct (RenditionState_Ended
              (rendition_or_new (stream_or_new r streamID) renditionID)) eqn:Hr;
    [|by destruct (Segments _ !! _)].
  exfalso. apply Ended_rendition_or_new in Hr as (rendition & Hrendition & Hended).
  apply (Hiff rendition Hrendition), Ended_stream_or_new in Hended. congruence.
Qed.

Lemma GetRenditionSnapshot_lookup r streamID renditionID :
  GetRenditionSnapshot r streamID renditionID
  = match lookup_rendition r streamID renditionID with
    | Some rendition =>
        (snapshot_segments (Segments rendition),
         RenditionState_Ended rendition, true)
    | None => ([], false, false)
    end.
Proof.
  destruct (lookup_rendition r streamID renditionID) as [rendition|] eqn:Hrd.
  - by apply GetRenditionSnapshot_found.
  - unfold GetRenditionSnapshot. unfold lookup_rendition in Hrd.
    destruct (GetStream r streamID) as [stream|]; simpl in *; [|done].
    by rewrite Hrd.
Qed.

Lemma EndStream_snapshot r streamID streamID' renditionID :
  ended_cascades r →
  GetRenditionSnapshot (EndStream r streamID).1 streamID' renditionID
  = let '(segments, ended, ok) := GetRenditionSnapshot r streamID' renditionID in
    (segments, if decide (streamID' = streamID) then ok else ended, ok).
Proof.
  intros Hreach.
  rewrite !GetRenditionSnapshot_lookup. unfold EndStream.
  destruct (GetStream r streamID) as [stream|] eqn:Hstream.
  - destruct (StreamState_Ended stream) eqn:Hended; simpl.
    + destruct (lookup_rendition r streamID' renditionID)
        as [rendition|] eqn:Hrendition; [|by case_decide].
      case_decide as Heq; [|done]. subst streamID'.
      unfold lookup_rendition in Hrendition. rewrite Hstream in Hrendition.
      simpl in Hrendition.
      by rewrite (Hreach streamID stream renditionID rendition).
    + rewrite lookup_rendition_store_stream.
      case_decide as Heq.
      * subst streamID'. simpl.
        unfold lookup_rendition. rewrite Hstream. simpl. rewrite lookup_fmap.
        destruct (Renditions stream !! renditionID); simpl;
          by rewrite decide_True.
      * destruct (lookup_rendition r streamID' renditionID);
          by rewrite decide_False.
  - simpl. destruct (lookup_rendition r streamID' renditionID)
      as [rendition|] eqn:Hrendition; [|by case_decide].
    case_decide as Heq; [|done]. subst streamID'.
    unfold lookup_rendition in Hrendition. by rewrite Hstream in Hrendition.
Qed.

(** [EndStream] in a state the repository can reach changes one thing in
    what [GetRenditionSnapshot] answers: for the renditions of the ended
    stream that exist the ended flag is now true.  The segments of every
    rendition, and which renditions exist, are as before; no stream and no
    rendition is created. *)
Theorem end_stream_keeps_segments r streamID streamID' renditionID :
  reachable r →
  GetRenditionSnapshot (EndStream r streamID).1 streamID' renditionID
  = let '(segments, ended, ok) := GetRenditionSnapshot r streamID' renditionID in
    (segments, if decide (streamID' = streamID) then ok else ended, ok).
Proof. intros Hreach. by apply EndStream_snapshot, reachable_ended_cascades. Qed.

(** ** The gauge of active streams *)

Lemma count_by_lookup (m : gmap StreamID StreamState)
    (l : list (StreamID * StreamState)) (n : Z) :
  Forall (λ kv, m !! kv.1 = Some kv.2) l →
  foldl (λ n id,
           match GetStream (mkStore m) id with
           | Some st => if negb (StreamState_Ended st) then n + 1 else n
           | None => n
           end) n l.*1
  = n + Z.of_nat (length (filter (λ kv, StreamState_Ended kv.2 = false) l)).
Proof.
  intros Hall. revert n.
  induction Hall as [|[id st] l Hhead Hall IH]; intros n; simpl; [lia|].
  rewrite IH. unfold GetStream. simpl in *. rewrite Hhead, filter_cons. simpl.
  destruct (StreamState_Ended st); simpl; [done|lia].
Qed.

Lemma size_filter_map_to_list (m : gmap StreamID StreamState) :
  length (filter (λ kv, StreamState_Ended kv.2 = false) (map_to_list m))
  = size (filter (λ kv : StreamID * StreamState,
                    StreamState_Ended kv.2 = false) m).
Proof.
  induction m as [|id st m Hfresh IH] using map_ind.
  - by rewrite map_to_list_empty, map_filter_empty, map_size_empty.
  - rewrite map_to_list_insert by done. rewrite filter_cons, map_filter_insert.
    case_decide; simpl.
    + rewrite IH, map_size_insert_None; [done|].
      apply map_lookup_filter_None. by left.
    + by rewrite delete_id.
Qed.

Lemma ActiveStreamCount_size r :
  ActiveStreamCount r = Z.of_nat (size (streams_not_ended r)).
Proof.
  unfold ActiveStreamCount, ListStreamIDs, streams_not_ended.
  destruct r as [m]. simpl. rewrite count_by_lookup.
  - by rewrite size_filter_map_to_list.
  - apply Forall_forall. intros [id st] Hin. by apply elem_of_map_to_list.
Qed.

(** [ActiveStreamCount] is the number of streams of the store that have not
    ended, whatever the order in which the store lists them.  A
    [RegisterSegment] raises it by one exactly when the stream of the call
    did not exist (the call creates it), an [EndStream] lowers it by one
    exactly when the stream exists and had not ended. *)
Theorem active_stream_count_tracks now r streamID renditionID seg :
  ActiveStreamCount r = Z.of_nat (size (streams_not_ended r)) ∧
  ActiveStreamCount (RegisterSegment now r streamID renditionID seg).1
  = ActiveStreamCount r
    + (if GetStream r streamID is Some _ then 0 else 1) ∧
  ActiveStreamCount (EndStream r streamID).1
  = ActiveStreamCount r
    - (match GetStream r streamID with
       | Some stream => if StreamState_Ended stream then 0 else 1
       | None => 0
       end).
Proof.
  split; [apply ActiveStreamCount_size|]. rewrite !ActiveStreamCount_size.
  split.
  - destruct (RegisterSegment_effect now r streamID renditionID seg)
      as [Hsame|(Hs & Hr & Hfresh & ->)].
    + rewrite Hsame.
      destruct (GetStream r streamID) as [stream|] eqn:Hstream; [lia|].
      exfalso. revert Hsame. rewrite RegisterSegment_unfold. cbn zeta.
      unfold stream_or_new, rendition_or_new. rewrite Hstream. simpl.
      rewrite !lookup_empty. simpl. rewrite lookup_empty. simpl.
      intros Hsame. apply (f_equal (λ r, GetStream r streamID)) in Hsame.
      rewrite GetStream_store_stream, decide_True in Hsame by done.
      congruence.
    + unfold streams_not_ended, store_stream. simpl.
      rewrite map_filter_insert_True
        by (unfold with_segment; simpl; exact Hs).
      rewrite map_size_insert, map_lookup_filter.
      unfold stream_or_new, GetStream in *.
      destruct (streams r !! streamID) as [stream|]; simpl in *.
      * rewrite option_guard_True by done. simpl. lia.
      * lia.
  - unfold EndStream.
    destruct (GetStream r streamID) as [stream|] eqn:Hstream; simpl; [|lia].
    destruct (StreamState_Ended stream) eqn:Hended; simpl; [lia|].
    unfold streams_not_ended, store_stream. simpl.
    rewrite map_filter_insert_False by done.
    rewrite map_filter_delete, map_size_delete, map_lookup_filter.
    unfold GetStream in Hstream. rewrite Hstream. simpl.
    rewrite option_guard_True by done. simpl.
    assert (size (filter (λ kv : StreamID * StreamState,
                            StreamState_Ended kv.2 = false) (streams r)) ≠ 0%nat);
      [|lia].
    intros Hzero. apply map_size_empty_inv in Hzero.
    apply (f_equal (λ m : gmap StreamID StreamState, m !! streamID)) in Hzero.
    rewrite map_lookup_filter, Hstream, lookup_empty in Hzero. simpl in Hzero.
    by rewrite option_guard_True in Hzero.
Qed.

(** ** Identifiers *)

Lemma step_ids_match r o : ids_match r → ids_match (step r o).
Proof.
  intros Hinv. destruct o as [now sid rid seg|sid| |]; simpl; [| |done..].
  - destruct (RegisterSegment_effect now r sid rid seg)
      as [->|(_ & _ & _ & ->)]; [done|].
    intros sid' st'. rewrite GetStream_store_stream.
    case_decide as Heq; [|apply Hinv]. subst sid'. intros [= <-].
    unfold with_segment, rendition_or_new, stream_or_new. simpl.
    destruct (GetStream r sid) as [st|] eqn:Hst; simpl.
    + destruct (Hinv sid st Hst) as [Hid Hrenditions]. split; [done|].
      intros rid' rd'. rewrite lookup_insert. case_decide as Heq.
      * subst rid'. intros [= <-]. simpl.
        destruct (Renditions st !! rid) as [rd|] eqn:Hrd; simpl; [|done].
        by apply Hrenditions.
      * apply Hrenditions.
    + split; [done|]. intros rid' rd'. rewrite lookup_insert.
      case_decide as Heq; [|by rewrite lookup_empty].
      subst rid'. intros [= <-]. simpl. by rewrite lookup_empty.
  - destruct (EndStream_effect r sid) as [->|(st & Hst & He & ->)]; [done|].
    intros sid' st'. rewrite GetStream_store_stream.
    case_decide as Heq; [|apply Hinv]. subst sid'. intros [= <-]. simpl.
    destruct (Hinv sid st Hst) as [Hid Hrenditions]. split; [done|].
    intros rid' rd'. rewrite lookup_fmap.
    destruct (Renditions st !! rid') as [rd|] eqn:Hrd; simpl; [|done].
    intros [= <-]. simpl. by apply Hrenditions.
Qed.

(** In every state the repository can reach, every object is filed under
    its own identifier: a stream under its [ID], a rendition under its
    [ID], a segment under its [Sequence]. *)
Theorem reachable_filed_by_identifier r :
  reachable r → ids_match r ∧ keys_match r.
Proof.
  intros Hreach. split; [|by apply reachable_keys_match].
  destruct Hreach as [ops ->]. induction ops as [|o ops IH] using rev_ind.
  - intros sid st. unfold GetStream. simpl. by rewrite lookup_empty.
  - rewrite run_snoc. by apply step_ids_match.
Qed.

(** ** What a playlist shows *)

Lemma scan_contiguous_maximal prev rest final :
  StronglySorted (λ a b, Sequence a < Sequence b) (prev :: rest) →
  Forall (λ s, in_int64 (Sequence s)) (prev :: rest) →
  last (prev :: scan_contiguous prev rest) = Some final →
  Sequence prev ≤ Sequence final ∧
  ∀ x, x ∈ prev :: rest → Sequence x ≠ Sequence final + 1.
Proof.
  revert prev. induction rest as [|s rest IH]; intros prev Hsorted Hrange.
  - simpl. intros [= <-]. split; [lia|]. intros x Hx.
    apply list_elem_of_singleton in Hx as ->. lia.
  - apply StronglySorted_cons in Hsorted as [Hprev Hsorted].
    apply Forall_cons in Hrange as [Hprev_range Hrange].
    pose proof Hprev as Hprev'. apply Forall_cons in Hprev' as [Hps _].
    simpl. case_bool_decide as Hgap.
    + intros [= <-]. split; [lia|]. intros x Hx.
      apply elem_of_cons in Hx as [->|Hx]; [lia|].
      apply elem_of_cons in Hx as [->|Hx].
      * intros Heq. apply Hgap. apply Forall_cons in Hrange as [Hs _].
        rewrite wrap64_id; [done|]. by rewrite <-Heq.
      * apply StronglySorted_cons in Hsorted as [Hs _].
        rewrite Forall_forall in Hs. specialize (Hs x Hx). lia.
    + intros Hlast.
      destruct (IH s Hsorted Hrange) as [Hle Hmax].
      { by destruct (scan_contiguous s rest). }
      split; [lia|]. intros x Hx.
      apply elem_of_cons in Hx as [->|Hx]; [lia|by apply Hmax].
Qed.

Lemma ascending_sorted l :
  StronglySorted (λ a b, Sequence a < Sequence b) l → sorted_by_sequence l.
Proof.
  induction 1 as [|x l Hl IH Hx]; constructor; [done|].
  eapply Forall_impl; [exact Hx|]. intros y Hy. simpl in *. lia.
Qed.

Lemma contiguous_run_maximal l final :
  StronglySorted (λ a b, Sequence a < Sequence b) l →
  Forall (λ s, in_int64 (Sequence s)) l →
  last (contiguous_run l) = Some final →
  ∀ x, x ∈ l → Sequence x ≠ Sequence final + 1.
Proof.
  destruct l as [|s0 rest]; [done|]. intros Hsorted Hrange Hlast.
  by apply (scan_contiguous_maximal s0 rest final).
Qed.

(** What [GetPlaylist] of a service made by [NewService] shows, in a state
    the repository can reach, where the sequence numbers are int64 values:
    for an unknown stream or rendition the empty text and [ok = false];
    otherwise the rendering, with the rendition's ended flag, of a window
    that is not empty, starts where the last [windowSize] segments of the
    snapshot start, runs without a gap, and stops only where the next
    sequence number is not registered. *)
Theorem playlist_shows_live_edge_run w r streamID renditionID :
  reachable r →
  map_Forall (λ sequence _, in_int64 sequence)
    (segments_of r streamID renditionID) →
  Z.of_nat (size (segments_of r streamID renditionID)) ≤ int64_max →
  let s := NewService w in
  let '(segments, ended, ok) := GetRenditionSnapshot r streamID renditionID in
  if ok then
    ∃ window final,
      GetPlaylist s r streamID renditionID
      = Returns (BuildLivePlaylist window ended, true) ∧
      window `prefix_of`
        drop (length segments - Z.to_nat (windowSize s)) segments ∧
      last window = Some final ∧
      no_gap window ∧
      lookup_segment r streamID renditionID (Sequence final + 1) = None
  else GetPlaylist s r streamID renditionID = Returns ("", false).
Proof.
  intros Hreach Hrange Hsize. cbn zeta.
  assert (0 < windowSize (NewService w)) as Hpos.
  { unfold NewService, DefaultWindowSize. simpl. case_bool_decide; lia. }
  set (s := NewService w) in *.
  pose proof (reachable_keys_match r Hreach) as Hkeys.
  pose proof (reachable_nothing_empty r Hreach) as Hfull.
  unfold GetPlaylist. rewrite GetRenditionSnapshot_lookup.
  unfold segments_of in Hrange, Hsize.
  destruct (lookup_rendition r streamID renditionID) as [rendition|] eqn:Hrd;
    [|done].
  simpl in Hrange, Hsize. cbn [negb].
  set (segments := snapshot_segments (Segments rendition)).
  assert (∀ seq seg, Segments rendition !! seq = Some seg → Sequence seg = seq)
    as Hkeys'.
  { intros seq seg Hseg. apply (Hkeys streamID renditionID).
    unfold lookup_segment. by rewrite Hrd. }
  destruct (snapshot_segments_spec (Segments rendition) Hkeys')
    as (Helem & Hlen & Hsorted).
  fold segments in Helem, Hlen, Hsorted.
  assert (Forall (λ seg, in_int64 (Sequence seg)) segments) as Hrange'.
  { apply Forall_forall. intros seg Hin. apply Helem in Hin as [seq Hseq].
    rewrite (Hkeys' _ _ Hseq). by apply (Hrange seq seg). }
  rewrite visible_of_ascending; [|done|unfold len; by rewrite Hlen|done].
  set (candidates := drop (length segments - Z.to_nat (windowSize s)) segments).
  assert (candidates ≠ []) as Hne.
  { intros Hnil. apply (f_equal length) in Hnil. unfold candidates in Hnil.
    rewrite length_drop, Hlen in Hnil. cbn [length] in Hnil.
    assert (size (Segments rendition) ≠ 0%nat); [|lia].
    intros Hzero. apply map_size_empty_inv in Hzero.
    unfold lookup_rendition in Hrd.
    destruct (GetStream r streamID) as [stream|] eqn:Hstream; [|done].
    simpl in Hrd. destruct (Hfull streamID stream Hstream) as [_ Hsegs].
    by apply (Hsegs renditionID rendition). }
  assert (is_Some (last (contiguous_run candidates))) as [final Hfinal].
  { destruct candidates as [|c0 rest]; [done|]. simpl.
    apply last_is_Some. done. }
  exists (contiguous_run candidates), final. simpl.
  rewrite <-(take_drop (length segments - Z.to_nat (windowSize s)) segments)
    in Hsorted, Hrange'.
  fold candidates in Hsorted, Hrange'.
  apply StronglySorted_app in Hsorted as (Hbefore & _ & Hsorted).
  apply Forall_app in Hrange' as [_ Hrange'].
  split; [done|]. split; [apply contiguous_run_prefix|]. split; [done|].
  split.
  { apply contiguous_run_no_gap; [|done]. by apply ascending_sorted. }
  destruct (lookup_segment r streamID renditionID (Sequence final + 1))
    as [next|] eqn:Hnext; [exfalso|done].
  pose proof (Hkeys _ _ _ _ Hnext) as Hseq.
  unfold lookup_segment in Hnext. rewrite Hrd in Hnext. simpl in Hnext.
  assert (next ∈ segments) as Hin by (apply Helem; eauto).
  rewrite <-(take_drop (length segments - Z.to_nat (windowSize s)) segments)
    in Hin.
  fold candidates in Hin. apply elem_of_app in Hin as [Hin|Hin].
  - destruct candidates as [|c0 rest] eqn:Hcand; [done|].
    assert (Sequence next < Sequence c0) as Hlt.
    { apply Hbefore; [done|]. by left. }
    destruct (scan_contiguous_maximal c0 rest final) as [Hle _]; [done..|].
    lia.
  - by apply (contiguous_run_maximal candidates final Hsorted Hrange' Hfinal next).
Qed.

(** ** After the end *)

Lemma step_frozen r o streamID :
  stream_ended r streamID → GetStream (step r o) streamID = GetStream r streamID.
Proof.
  intros Hended. destruct o as [now sid rid seg|sid| |]; simpl; [| |done..].
  - destruct (RegisterSegment_effect now r sid rid seg)
      as [->|(Hs & _ & _ & ->)]; [done|].
    rewrite GetStream_store_stream. case_decide as Heq; [|done]. subst sid.
    apply Ended_stream_or_new in Hended. congruence.
  - destruct (EndStream_effect r sid) as [->|(st & Hst & He & ->)]; [done|].
    rewrite GetStream_store_stream. case_decide as Heq; [|done]. subst sid.
    destruct Hended as (? & Hst' & Hended). congruence.
Qed.

Lemma run_frozen r ops streamID :
  stream_ended r streamID → GetStream (run r ops) streamID = GetStream r streamID.
Proof.
  revert r. induction ops as [|o ops IH]; intros r Hended; simpl; [done|].
  rewrite IH by by apply step_stream_ended. by apply step_frozen.
Qed.

Lemma GetPlaylist_ext s r r' streamID renditionID :
  GetStream r streamID = GetStream r' streamID →
  GetPlaylist s r streamID renditionID = GetPlaylist s r' streamID renditionID.
Proof.
  intros Heq. unfold GetPlaylist, GetRenditionSnapshot. by rewrite Heq.
Qed.

(** Once [EndStream] has run on a stream, the playlist of each of its
    renditions is final: [GetPlaylist] of a service made by [NewService]
    returns a text whose last line reads [#EXT-X-ENDLIST], and returns that
    same text after any further operations on the repository. *)
Theorem ended_playlist_is_final w r streamID renditionID :
  reachable r →
  is_Some (lookup_rendition r streamID renditionID) →
  Z.of_nat (size (segments_of r streamID renditionID)) ≤ int64_max →
  let r0 := (EndStream r streamID).1 in
  ∃ text,
    GetPlaylist (NewService w) r0 streamID renditionID = Returns (text, true) ∧
    has_trailing_endlist text = true ∧
    ∀ ops,
      GetPlaylist (NewService w) (run r0 ops) streamID renditionID
      = Returns (text, true).
Proof.
  intros Hreach [rendition Hrd] Hsize. cbn zeta.
  assert (0 < windowSize (NewService w)) as Hpos.
  { unfold NewService, DefaultWindowSize. simpl. case_bool_decide; lia. }
  set (s := NewService w) in *.
  unfold segments_of in Hsize. rewrite Hrd in Hsize. simpl in Hsize.
  assert (GetPlaylist s (EndStream r streamID).1 streamID renditionID
          = Returns
              (BuildLivePlaylist
                 (contiguous_run
                    (candidate_window (snapshot_segments (Segments rendition))
                       (windowSize s))) true, true)) as Hfinal.
  { unfold GetPlaylist.
    rewrite EndStream_snapshot by by apply reachable_ended_cascades.
    rewrite (GetRenditionSnapshot_found _ _ _ _ Hrd).
    rewrite decide_True by done. cbn [negb].
    rewrite visible_positive_window; [done| |done].
    destruct (snapshot_sequences (Segments rendition)) as (_ & Hlen & _).
    cbn zeta in Hlen. unfold len, snapshot_segments. cbn zeta.
    by rewrite length_fmap, Hlen. }
  eexists. split; [exact Hfinal|]. split.
  - apply trailing_endlist_iff. by left.
  - intros ops. rewrite <-Hfinal. apply GetPlaylist_ext, run_frozen.
    apply EndStream_ends. unfold lookup_rendition in Hrd.
    by destruct (GetStream r streamID).
Qed.

(** ** The HTTP handlers *)

Lemma Handler_eta h : mkHandler (repo h) (metrics h) = h.
Proof. by destruct h. Qed.

(** The handler of [POST .../segments] writes one status line and nothing
    else: 405 for another method, 400 for an empty stream or rendition
    parameter or a body the decoder rejects, 409 when the stream or the
    rendition has ended, 201 otherwise.  Only a 201 changes anything: the
    repository as [RegisterSegment] leaves it, and one more on the counter
    of registered segments when the handler has metrics. *)
Theorem register_handler_answers s now h r :
  let streamID := URLParam r "stream_id" in
  let renditionID := URLParam r "rendition" in
  let h' := (Handler_RegisterSegment s now h r).1 in
  ∃ code,
    (Handler_RegisterSegment s now h r).2 = [CallWriteHeader code] ∧
    (code = StatusMethodNotAllowed ↔ Method r ≠ MethodPost) ∧
    (code = StatusBadRequest ↔
       Method r = MethodPost ∧
       (streamID = "" ∨ renditionID = "" ∨ decode_segment (Body r) = None)) ∧
    (code = StatusConflict ↔
       Method r = MethodPost ∧ streamID ≠ "" ∧ renditionID ≠ "" ∧
       is_Some (decode_segment (Body r)) ∧
       ¬ live (repo h) streamID renditionID) ∧
    (code = StatusCreated ↔
       Method r = MethodPost ∧ streamID ≠ "" ∧ renditionID ≠ "" ∧
       is_Some (decode_segment (Body r)) ∧
       live (repo h) streamID renditionID) ∧
    (code ≠ StatusCreated → h' = h) ∧
    (code = StatusCreated →
       metrics h' = IncSegmentsRegistered <$> metrics h ∧
       ∃ sequence duration path,
         decode_segment (Body r) = Some (sequence, duration, path) ∧
         repo h' = (RegisterSegment now (repo h) streamID renditionID
                      (mkSegment sequence duration path zero_time)).1).
Proof.
  cbn zeta. unfold Handler_RegisterSegment.
  unfold StatusMethodNotAllowed, StatusBadRequest, StatusConflict, StatusCreated.
  case_bool_decide as Hmethod.
  { exists 405. simpl. split_and!; try done;
      intuition (try done; try congruence; try lia). }
  case_bool_decide as Hstream; simpl.
  { exists 400. simpl. split_and!; try done;
      intuition (try done; try congruence; try lia). }
  case_bool_decide as Hrendition; simpl.
  { exists 400. simpl. split_and!; try done;
      intuition (try done; try congruence; try lia). }
  destruct (decode_segment (Body r)) as [[[sequence duration] path]|] eqn:Hbody.
  2: { exists 400. simpl.
       assert (¬ is_Some (@None (Z * float64 * string))) by by intros [? ?].
       split_and!; try done;
         intuition (try done; try congruence; try lia). }
  assert (is_Some (Some (sequence, duration, path))) as Hsome by by eexists.
  unfold Service_RegisterSegment.
  destruct (RegisterSegment_accepts now (repo h) (URLParam r "stream_id")
              (URLParam r "rendition")
              (mkSegment sequence duration path zero_time))
    as [Hlive Hsame].
  destruct (RegisterSegment now (repo h) (URLParam r "stream_id")
              (URLParam r "rendition")
              (mkSegment sequence duration path zero_time))
    as [repo' err] eqn:Hregister.
  simpl in Hlive, Hsame.
  destruct err as [err|].
  - assert (repo' = repo h) as -> by by apply Hsame.
    assert (¬ live (repo h) (URLParam r "stream_id") (URLParam r "rendition"))
      as Hnot by (rewrite <-Hlive; done).
    exists 409. rewrite Handler_eta.
    destruct err; simpl; (split_and!; try done;
      intuition (try done; try congruence; try lia)).
  - assert (live (repo h) (URLParam r "stream_id") (URLParam r "rendition"))
      as Hyes by by apply Hlive.
    exists 201. simpl. split_and!; try done;
      try (intuition (try done; try congruence; try lia)).
    exists sequence, duration, path. by rewrite Hregister.
Qed.

Lemma GetPlaylist_NewService w r streamID renditionID :
  Z.of_nat (size (segments_of r streamID renditionID)) ≤ int64_max →
  GetPlaylist (NewService w) r streamID renditionID
  = match lookup_rendition r streamID renditionID with
    | Some rendition =>
        Returns
          (BuildLivePlaylist
             (contiguous_run
                (candidate_window (snapshot_segments (Segments rendition))
                   (windowSize (NewService w))))
             (RenditionState_Ended rendition), true)
    | None => Returns ("", false)
    end.
Proof.
  intros Hsize.
  assert (0 < windowSize (NewService w)) as Hpos.
  { unfold NewService, DefaultWindowSize. simpl. case_bool_decide; lia. }
  unfold GetPlaylist. rewrite GetRenditionSnapshot_lookup.
  unfold segments_of in Hsize.
  destruct (lookup_rendition r streamID renditionID) as [rendition|]; [|done].
  simpl in Hsize. cbn [negb].
  rewrite visible_positive_window; [done| |done].
  destruct (snapshot_sequences (Segments rendition)) as (_ & Hlen & _).
  cbn zeta in Hlen. unfold len, snapshot_segments. cbn zeta.
  by rewrite length_fmap, Hlen.
Qed.

(** The handler of [GET .../playlist.m3u8], on a service made by
    [NewService], answers 405 to another method, 400 to an empty stream or
    rendition parameter, 404 when the stream or the rendition does not
    exist, and otherwise sets the content type
    [application/vnd.apple.mpegurl], writes 200 and then the text
    [GetPlaylist] returns. *)
Theorem playlist_handler_answers w h r :
  let s := NewService w in
  let streamID := URLParam r "stream_id" in
  let renditionID := URLParam r "rendition" in
  Z.of_nat (size (segments_of (repo h) streamID renditionID)) ≤ int64_max →
  ∃ calls,
    Handler_GetPlaylist s h r = Returns calls ∧
    ((Method r ≠ MethodGet ∧ calls = [CallWriteHeader StatusMethodNotAllowed]) ∨
     (Method r = MethodGet ∧ (streamID = "" ∨ renditionID = "") ∧
      calls = [CallWriteHeader StatusBadRequest]) ∨
     (Method r = MethodGet ∧ streamID ≠ "" ∧ renditionID ≠ "" ∧
      lookup_rendition (repo h) streamID renditionID = None ∧
      calls = [CallWriteHeader StatusNotFound]) ∨
     (Method r = MethodGet ∧ streamID ≠ "" ∧ renditionID ≠ "" ∧
      is_Some (lookup_rendition (repo h) streamID renditionID) ∧
      ∃ text,
        GetPlaylist s (repo h) streamID renditionID = Returns (text, true) ∧
        calls = [CallHeaderSet "Content-Type" "application/vnd.apple.mpegurl";
                 CallWriteHeader StatusOK;
                 CallWrite text])).
Proof.
  cbn zeta. intros Hsize. unfold Handler_GetPlaylist.
  case_bool_decide as Hmethod; [eexists; split; [done|]; by left|].
  case_bool_decide as Hstream; simpl.
  { eexists. split; [done|]. right. left. auto. }
  case_bool_decide as Hrendition; simpl.
  { eexists. split; [done|]. right. left. auto. }
  rewrite (GetPlaylist_NewService _ _ _ _ Hsize).
  destruct (lookup_rendition (repo h) (URLParam r "stream_id")
              (URLParam r "rendition")) as [rendition|]; simpl.
  - eexists. split; [done|]. do 3 right.
    split; [done|]. split; [done|]. split; [done|]. split; [by eexists|].
    eexists. split; done.
  - eexists. split; [done|]. right. right. left. auto.
Qed.

(** The handler of [POST .../end] never answers 500: it writes 405 for
    another method, 400 for an empty stream parameter and 200 otherwise,
    also when the stream does not exist or has already ended.  Every 200
    adds one to the counter of ended streams when the handler has metrics;
    the repository is as [EndStream] leaves it. *)
Theorem end_handler_answers s h r :
  let streamID := URLParam r "stream_id" in
  let h' := (Handler_EndStream s h r).1 in
  ∃ code,
    (Handler_EndStream s h r).2 = [CallWriteHeader code] ∧
    code ≠ StatusInternalServerError ∧
    (code = StatusMethodNotAllowed ↔ Method r ≠ MethodPost) ∧
    (code = StatusBadRequest ↔ Method r = MethodPost ∧ streamID = "") ∧
    (code = StatusOK ↔ Method r = MethodPost ∧ streamID ≠ "") ∧
    (code ≠ StatusOK → h' = h) ∧
    (code = StatusOK →
       repo h' = (EndStream (repo h) streamID).1 ∧
       metrics h' = IncStreamsEnded <$> metrics h).
Proof.
  cbn zeta. unfold Handler_EndStream.
  unfold StatusMethodNotAllowed, StatusBadRequest, StatusOK,
    StatusInternalServerError.
  case_bool_decide as Hmethod.
  { exists 405. simpl. repeat split; try done; try tauto; try lia. }
  case_bool_decide as Hstream; simpl.
  { exists 400. simpl. repeat split; try done; try tauto; try lia. }
  unfold Service_EndStream.
  pose proof (EndStream_no_error (repo h) (URLParam r "stream_id")) as Herr.
  destruct (EndStream (repo h) (URLParam r "stream_id")) as [repo' err].
  simpl in Herr. subst err.
  exists 200. simpl. repeat split; try done; try tauto; try lia.
Qed.

(** ** Requests and counters *)

Lemma Handler_RegisterSegment_counts s now h r :
  ∃ code,
    (Handler_RegisterSegment s now h r).2 = [CallWriteHeader code] ∧
    ((code = StatusCreated ∧
      metrics (Handler_RegisterSegment s now h r).1
      = IncSegmentsRegistered <$> metrics h) ∨
     (code >= 400 ∧ metrics (Handler_RegisterSegment s now h r).1 = metrics h)).
Proof.
  unfold Handler_RegisterSegment.
  case_bool_decide; [exists 405; split; [done|]; right; by split|].
  destruct (bool_decide _ || bool_decide _);
    [exists 400; split; [done|]; right; by split|].
  destruct (decode_segment (Body r)) as [[[sequence duration] path]|];
    [|exists 400; split; [done|]; right; by split].
  cbn zeta.
  destruct (Service_RegisterSegment _ _ _ _ _ _) as [repo' [[]|]].
  - exists 409. split; [done|]. right. by split.
  - exists 409. split; [done|]. right. by split.
  - exists 201. split; [done|]. left. by split.
Qed.

Lemma Handler_EndStream_counts s h r :
  ∃ code,
    (Handler_EndStream s h r).2 = [CallWriteHeader code] ∧
    ((code = StatusOK ∧
      metrics (Handler_EndStream s h r).1 = IncStreamsEnded <$> metrics h) ∨
     (code >= 400 ∧ metrics (Handler_EndStream s h r).1 = metrics h)).
Proof.
  unfold Handler_EndStream.
  case_bool_decide; [exists 405; split; [done|]; right; by split|].
  case_bool_decide; [exists 400; split; [done|]; right; by split|].
  cbn zeta.
  destruct (Service_EndStream _ _ _) as [repo' [err|]].
  - exists 500. split; [done|]. right. by split.
  - exists 200. split; [done|]. left. by split.
Qed.

(** Behind the metrics middleware, as [main] mounts them, a request to
    [POST .../segments] or to [POST .../end] adds one to the counter of
    requests and one to exactly one other counter: the counter of errors
    when the status is 400 or above, else the counter of registered
    segments, respectively of ended streams. *)
Theorem each_request_counted_once s now h r m :
  metrics h = Some m →
  (∃ h' m' code,
     RequestMiddleware (λ h r, Returns (Handler_RegisterSegment s now h r)) h r
     = Returns (h', [CallWriteHeader code]) ∧
     metrics h' = Some m' ∧
     requestsTotal m' = requestsTotal m + 1 ∧
     streamsEndedTotal m' = streamsEndedTotal m ∧
     ((code = StatusCreated ∧
       segmentsRegisteredTotal m' = segmentsRegisteredTotal m + 1 ∧
       errorsTotal m' = errorsTotal m) ∨
      (code >= 400 ∧
       segmentsRegisteredTotal m' = segmentsRegisteredTotal m ∧
       errorsTotal m' = errorsTotal m + 1))) ∧
  (∃ h' m' code,
     RequestMiddleware (λ h r, Returns (Handler_EndStream s h r)) h r
     = Returns (h', [CallWriteHeader code]) ∧
     metrics h' = Some m' ∧
     requestsTotal m' = requestsTotal m + 1 ∧
     segmentsRegisteredTotal m' = segmentsRegisteredTotal m ∧
     ((code = StatusOK ∧
       streamsEndedTotal m' = streamsEndedTotal m + 1 ∧
       errorsTotal m' = errorsTotal m) ∨
      (code >= 400 ∧
       streamsEndedTotal m' = streamsEndedTotal m ∧
       errorsTotal m' = errorsTotal m + 1))).
Proof.
  intros Hm. unfold RequestMiddleware. split.
  - destruct (Handler_RegisterSegment_counts s now h r)
      as (code & Hcalls & Hcount).
    destruct (Handler_RegisterSegment s now h r) as [h' calls].
    simpl in *. subst calls. rewrite Hm in Hcount. simpl in Hcount.
    unfold captured_status. simpl.
    destruct Hcount as [[-> ->]|[Hcode ->]].
    + rewrite bool_decide_false by (unfold StatusCreated; lia).
      eexists _, _, _. split; [done|]. simpl. split; [done|].
      split; [done|]. split; [done|]. left. done.
    + rewrite bool_decide_true by done.
      eexists _, _, _. split; [done|]. simpl. split; [done|].
      split; [done|]. split; [done|]. right. done.
  - destruct (Handler_EndStream_counts s h r) as (code & Hcalls & Hcount).
    destruct (Handler_EndStream s h r) as [h' calls].
    simpl in *. subst calls. rewrite Hm in Hcount. simpl in Hcount.
    unfold captured_status. simpl.
    destruct Hcount as [[-> ->]|[Hcode ->]].
    + rewrite bool_decide_false by (unfold StatusOK; lia).
      eexists _, _, _. split; [done|]. simpl. split; [done|].
      split; [done|]. split; [done|]. left. done.
    + rewrite bool_decide_true by done.
      eexists _, _, _. split; [done|]. simpl. split; [done|].
      split; [done|]. split; [done|]. right. done.
Qed.

(** ** The configured window *)

(** The service [main] builds never has a window size below 1: it is the
    value of [SLIDING_WINDOW_SIZE] when that is set to a text [strconv.Atoi]
    reads as a positive integer, and 6 in every other case. *)
Theorem configured_window_is_positive env :
  let text := Getenv env "SLIDING_WINDOW_SIZE" in
  let s := main_service env in
  0 < windowSize s ∧
  (∀ n, text ≠ "" → Atoi text = Some n → 0 < n → windowSize s = n) ∧
  (text = "" ∨ Atoi text = None ∨ (∃ n, Atoi text = Some n ∧ n ≤ 0) →
   windowSize s = DefaultWindowSize).
Proof.
  cbn zeta. unfold main_service. cbn zeta. split; [|split].
  - unfold NewService, DefaultWindowSize. simpl. case_bool_decide; lia.
  - intros n Htext Hn Hpos. unfold GetEnvInt. cbn zeta.
    rewrite bool_decide_true by done. rewrite Hn.
    by apply NewService_positive.
  - intros Hcases.
    assert (GetEnvInt env "SLIDING_WINDOW_SIZE" 6 = 6 ∨
            GetEnvInt env "SLIDING_WINDOW_SIZE" 6 ≤ 0) as Hvalue.
    { unfold GetEnvInt. cbn zeta.
      destruct Hcases as [Htext|[Hnone|(n & Hn & Hle)]].
      - left. by rewrite bool_decide_false by (by intros ?).
      - left. rewrite Hnone. by case_bool_decide.
      - rewrite Hn. case_bool_decide; [by right|by left]. }
    unfold NewService, DefaultWindowSize. simpl.
    destruct Hvalue as [->|Hle]; [done|].
    by rewrite bool_decide_true.
Qed.

(** ** The store *)

(** [InMemoryStore] as a [Store]: a new store holds nothing; [SetStream]
    files a stream under its own [ID], replacing what was there and leaving
    every other stream; [ListStreamIDs] lists, each once, exactly the
    identifiers [GetStream] finds. *)
Theorem store_set_get_list s st id :
  GetStream NewInMemoryStore id = None ∧
  ListStreamIDs NewInMemoryStore = [] ∧
  GetStream (SetStream s st) id
  = (if decide (StreamState_ID st = id) then Some st else GetStream s id) ∧
  NoDup (ListStreamIDs s) ∧
  (id ∈ ListStreamIDs s ↔ is_Some (GetStream s id)) ∧
  (id ∈ ListStreamIDs (SetStream s st)
     ↔ id = StreamState_ID st ∨ id ∈ ListStreamIDs s).
Proof.
  assert (∀ s' id', id' ∈ ListStreamIDs s' ↔ is_Some (GetStream s' id'))
    as Hlist.
  { intros s' id'. unfold ListStreamIDs, GetStream.
    rewrite list_elem_of_fmap. split.
    - intros ([k x] & -> & Hin). apply elem_of_map_to_list in Hin. by eexists.
    - intros [x Hx]. exists (id', x). split; [done|].
      by apply elem_of_map_to_list. }
  assert (GetStream (SetStream s st) id
          = (if decide (StreamState_ID st = id) then Some st
             else GetStream s id)) as Hset.
  { unfold GetStream, SetStream. simpl. apply lookup_insert. }
  split_and!.
  - unfold GetStream, NewInMemoryStore. simpl. apply lookup_empty.
  - unfold ListStreamIDs, NewInMemoryStore. simpl.
    by rewrite map_to_list_empty.
  - exact Hset.
  - unfold ListStreamIDs. apply NoDup_fst_map_to_list.
  - apply Hlist.
  - rewrite !Hlist, Hset. case_decide as Heq.
    + split; [by left|by eexists].
    + split; [by right|]. intros [->|?]; done.
Qed.

(** ** Arrival order *)

Lemma snapshot_segments_untimed (m : gmap Z Segment) :
  untimed <$> snapshot_segments m = snapshot_segments (untimed <$> m).
Proof.
  unfold snapshot_segments. cbn zeta.
  assert ((map_to_list (untimed <$> m)).*1 = (map_to_list m).*1) as ->.
  { rewrite map_to_list_fmap, <-list_fmap_compose.
    apply list_fmap_ext. by intros i [k x] _. }
  rewrite <-list_fmap_compose. apply list_fmap_ext. intros i seq _. simpl.
  rewrite lookup_fmap. by destruct (m !! seq).
Qed.

Lemma entries_untimed arrivals :
  untimed <$> (list_to_map (entries arrivals) : gmap Z Segment)
  = list_to_map ((λ seg, (Sequence seg, untimed seg)) <$> arrivals.*2).
Proof.
  rewrite <-list_to_map_fmap. f_equal. unfold entries.
  rewrite <-!list_fmap_compose. apply list_fmap_ext. by intros i [now seg] _.
Qed.

Lemma register_all_untimed r streamID renditionID arrivals arrivals' :
  live r streamID renditionID →
  NoDup (Sequence <$> arrivals.*2) →
  arrivals'.*2 ≡ₚ arrivals.*2 →
  untimed <$> segments_of (register_all r streamID renditionID arrivals')
                streamID renditionID
  = untimed <$> segments_of (register_all r streamID renditionID arrivals)
                  streamID renditionID.
Proof.
  intros Hlive Hnodup Hperm. rewrite !register_all_union by done.
  rewrite !map_fmap_union, !entries_untimed. f_equal.
  apply list_to_map_proper; [|by rewrite Hperm].
  rewrite Hperm, <-list_fmap_compose. exact Hnodup.
Qed.

Lemma register_all_keys_match r streamID renditionID arrivals :
  keys_match r → keys_match (register_all r streamID renditionID arrivals).
Proof.
  revert r. induction arrivals as [|[now seg] arrivals IH]; intros r Hr;
    [done|].
  apply IH. exact (step_keys_match r (OpRegisterSegment now _ _ seg) Hr).
Qed.

Lemma sort_slice_ascending l :
  StronglySorted (λ a b, Sequence a < Sequence b) l →
  sort_slice Sequence l = l.
Proof.
  intros Hsorted. apply (sorted_perm_unique Sequence); [done| |].
  - apply (sort_slice_sorted Sequence).
  - apply sort_slice_perm.
Qed.

Lemma contiguous_run_untimed l :
  untimed <$> contiguous_run l = contiguous_run (untimed <$> l).
Proof.
  destruct l as [|s0 rest]; [done|]. simpl. f_equal. revert s0.
  induction rest as [|s rest IH]; intros s0; simpl; [done|].
  case_bool_decide; [done|]. simpl. by rewrite IH.
Qed.

Lemma segment_lines_untimed l :
  (untimed <$> l) ≫= segment_lines = l ≫= segment_lines.
Proof. induction l as [|seg l IH]; [done|]. csimpl. by rewrite IH. Qed.

Lemma BuildLivePlaylist_untimed l ended :
  BuildLivePlaylist (untimed <$> l) ended = BuildLivePlaylist l ended.
Proof.
  destruct l as [|seg0 rest]; [done|]. rewrite fmap_cons.
  rewrite !BuildLivePlaylist_nonempty by done.
  rewrite !foldl_write_segment. rewrite <-fmap_cons, segment_lines_untimed.
  unfold header_of.
  rewrite (targetDuration_ext (untimed <$> seg0 :: rest) (seg0 :: rest));
    [done|].
  rewrite <-list_fmap_compose. by apply list_fmap_ext.
Qed.

(** The playlist does not show [ReceivedAt]. *)
Lemma rendering_untimed l l' w ended :
  StronglySorted (λ a b, Sequence a < Sequence b) l →
  StronglySorted (λ a b, Sequence a < Sequence b) l' →
  untimed <$> l' = untimed <$> l →
  (window ← contiguousVisibleSegments l' w;
   Returns (BuildLivePlaylist window ended, true))
  = (window ← contiguousVisibleSegments l w;
     Returns (BuildLivePlaylist window ended, true)).
Proof.
  intros Hl Hl' Heq.
  assert (length l' = length l) as Hlen.
  { apply (f_equal length) in Heq. by rewrite !length_fmap in Heq. }
  unfold contiguousVisibleSegments. cbn zeta.
  rewrite !sort_slice_ascending by done. unfold len. rewrite Hlen.
  case_bool_decide; [by destruct l, l'|].
  unfold slice_from, len. rewrite Hlen.
  case_bool_decide; [|done]. simpl. do 2 f_equal.
  rewrite <-(BuildLivePlaylist_untimed (contiguous_run (drop _ l'))).
  rewrite <-(BuildLivePlaylist_untimed (contiguous_run (drop _ l))).
  by rewrite !contiguous_run_untimed, !fmap_drop, Heq.
Qed.

(** Out-of-order convergence. In a state the repository can reach, on a
    rendition that has not ended, register segments with pairwise distinct
    sequence numbers in one order or in another, each call at whatever time
    it happens.  The two snapshots hold the same sequence numbers,
    durations and paths in the same order (only [ReceivedAt], the time of
    the call that filed the segment, can differ), the same ended flag and
    the same [ok], and [GetPlaylist] answers the same. *)
Theorem out_of_order_convergence s r streamID renditionID arrivals arrivals' :
  reachable r →
  live r streamID renditionID →
  NoDup (Sequence <$> arrivals.*2) →
  arrivals'.*2 ≡ₚ arrivals.*2 →
  let r1 := register_all r streamID renditionID arrivals in
  let r2 := register_all r streamID renditionID arrivals' in
  let '(segments1, ended1, ok1) := GetRenditionSnapshot r1 streamID renditionID in
  let '(segments2, ended2, ok2) := GetRenditionSnapshot r2 streamID renditionID in
  untimed <$> segments2 = untimed <$> segments1 ∧
  ended2 = ended1 ∧
  ok2 = ok1 ∧
  GetPlaylist s r2 streamID renditionID = GetPlaylist s r1 streamID renditionID.
Proof.
  intros Hreach Hlive Hnodup Hperm. cbn zeta.
  destruct arrivals as [|arrival arrivals].
  { apply Permutation_nil_r, fmap_nil_inv in Hperm. subst arrivals'.
    by destruct (GetRenditionSnapshot _ _ _) as [[? ?] ?]. }
  assert (arrivals' ≠ []) as Hne'.
  { intros ->. by apply Permutation_nil_cons in Hperm. }
  pose proof (register_all_untimed r streamID renditionID _ _
                Hlive Hnodup Hperm) as Hsame.
  pose proof (reachable_keys_match r Hreach) as Hkeys.
  pose proof (register_all_keys_match r streamID renditionID
                (arrival :: arrivals) Hkeys) as Hkeys1.
  pose proof (register_all_keys_match r streamID renditionID arrivals' Hkeys)
    as Hkeys2.
  destruct (register_all_rendition r streamID renditionID (arrival :: arrivals)
              Hlive) as (rd & Hrd & Hended & _); [done|].
  destruct (register_all_rendition r streamID renditionID arrivals' Hlive Hne')
    as (rd' & Hrd' & Hended' & _).
  unfold segments_of in Hsame. rewrite Hrd, Hrd' in Hsame. simpl in Hsame.
  unfold GetPlaylist.
  rewrite (GetRenditionSnapshot_found _ _ _ _ Hrd).
  rewrite (GetRenditionSnapshot_found _ _ _ _ Hrd').
  rewrite Hended, Hended'. cbn [negb].
  assert (untimed <$> snapshot_segments (Segments rd')
          = untimed <$> snapshot_segments (Segments rd)) as Hsnap.
  { by rewrite !snapshot_segments_untimed, Hsame. }
  split; [exact Hsnap|]. split; [done|]. split; [done|].
  apply rendering_untimed; [| |exact Hsnap].
  - apply snapshot_segments_spec. intros seq seg Hseg.
    apply (Hkeys1 streamID renditionID). unfold lookup_segment.
    by rewrite Hrd.
  - apply snapshot_segments_spec. intros seq seg Hseg.
    apply (Hkeys2 streamID renditionID). unfold lookup_segment.
    by rewrite Hrd'.
Qed.

End Orchestrator.

(** * Runs of the model *)

(** ** A sorter

    Insertion into a sorted prefix, the method [sort.Slice] itself uses on
    short slices. *)
Fixpoint insert_by_key {A} (key : A → Z) (x : A) (l : list A) : list A :=
  match l with
  | [] => [x]
  | y :: l' =>
      if bool_decide (key x < key y) then x :: y :: l'
      else y :: insert_by_key key x l'
  end.

Definition insertion_sort {A} (key : A → Z) (l : list A) : list A :=
  foldl (λ acc x, insert_by_key key x acc) [] l.

Lemma insert_by_key_perm {A} (key : A → Z) x l :
  insert_by_key key x l ≡ₚ x :: l.
Proof.
  induction l as [|y l IH]; simpl; [done|].
  case_bool_decide; [done|]. by rewrite IH, Permutation_swap.
Qed.

Lemma insert_by_key_sorted {A} (key : A → Z) x l :
  StronglySorted (λ a b, key a ≤ key b) l →
  StronglySorted (λ a b, key a ≤ key b) (insert_by_key key x l).
Proof.
  induction 1 as [|y l Hl IH Hy]; simpl.
  - repeat constructor.
  - case_bool_decide as Hlt.
    + constructor; [by constructor|].
      constructor; [lia|]. eapply Forall_impl; [exact Hy|]. simpl. lia.
    + constructor; [done|].
      rewrite insert_by_key_perm. constructor; [lia|done].
Qed.

Lemma insertion_sort_spec {A} (key : A → Z) (l : list A) :
  insertion_sort key l ≡ₚ l ∧
  StronglySorted (λ a b, key a ≤ key b) (insertion_sort key l).
Proof.
  unfold insertion_sort.
  cut (∀ acc, StronglySorted (λ a b, key a ≤ key b) acc →
         foldl (λ acc x, insert_by_key key x acc) acc l ≡ₚ acc ++ l ∧
         StronglySorted (λ a b, key a ≤ key b)
           (foldl (λ acc x, insert_by_key key x acc) acc l)).
  { intros Hcut. apply (Hcut []). constructor. }
  induction l as [|x l IH]; intros acc Hacc; simpl.
  - by rewrite app_nil_r.
  - destruct (IH (insert_by_key key x acc)) as [Hp Hs].
    { by apply insert_by_key_sorted. }
    split; [|done].
    rewrite Hp, insert_by_key_perm. simpl. apply Permutation_middle.
Qed.

Global Instance insertion_sorter : SliceSorter := {|
  sort_slice := @insertion_sort;
  sort_slice_perm := λ A key l, proj1 (insertion_sort_spec key l);
  sort_slice_sorted := λ A key l, proj2 (insertion_sort_spec key l)
|}.

(** ** Durations

    Durations counted in tenths of a second: the values a JSON body writes
    with one decimal digit ([2.0], [2.5], [1.1]), on which [>], [<=],
    [math.Ceil] and ["%.1f"] give what they give on the nearest [float64]. *)
Definition tenths_fmt1 (d : Z) : string :=
  (if bool_decide (d < 0) then "-" else "")
    +:+ pretty (Z.abs d / 10) +:+ "." +:+ pretty (Z.abs d mod 10).

Global Instance tenths : Float64Ops := {|
  float64 := Z;
  f64_zero := 0;
  f64_gt := λ a b, bool_decide (a > b);
  f64_le := λ a b, bool_decide (a ≤ b);
  f64_ceil_int := λ a, - ((- a) / 10);
  f64_fmt1 := tenths_fmt1
|}.

(** ** Scenarios

    The sorter is [insertion_sorter], durations are [tenths]. *)

Definition segment (sequence : Z) (duration : Z) (path : string) : Segment :=
  mkSegment sequence duration path zero_time.

(** The same segment once the registry has filed it at [receivedAt]. *)
Definition filed (sequence : Z) (duration : Z) (path : string)
    (receivedAt : Time) : Segment :=
  mkSegment sequence duration path receivedAt.

(** Scenarios of the package's tests. *)

Example playlist_38_39 :
  BuildLivePlaylist
    [segment 38 20 "/segments/38.ts"; segment 39 20 "/segments/39.ts"] false
  = unlines ["#EXTM3U"; "#EXT-X-VERSION:3"; "#EXT-X-TARGETDURATION:2";
             "#EXT-X-MEDIA-SEQUENCE:38"; "";
             "#EXTINF:2.0,"; "/segments/38.ts";
             "#EXTINF:2.0,"; "/segments/39.ts"].
Proof. reflexivity. Qed.

Example playlist_ceiling_ended :
  BuildLivePlaylist [segment 1 25 "/a.ts"] true
  = unlines ["#EXTM3U"; "#EXT-X-VERSION:3"; "#EXT-X-TARGETDURATION:3";
             "#EXT-X-MEDIA-SEQUENCE:1"; "";
             "#EXTINF:2.5,"; "/a.ts"; "#EXT-X-ENDLIST"].
Proof. reflexivity. Qed.

Example window_size_cap :
  GetPlaylist (NewService 3)
    (register_all NewInMemoryStore "s1" "720p"
       ((λ k, (k, segment k 20 "/x.ts")) <$> [1; 2; 3; 4; 5; 6]))
    "s1" "720p"
  = Returns
      (unlines ["#EXTM3U"; "#EXT-X-VERSION:3"; "#EXT-X-TARGETDURATION:2";
                "#EXT-X-MEDIA-SEQUENCE:4"; "";
                "#EXTINF:2.0,"; "/x.ts"; "#EXTINF:2.0,"; "/x.ts";
                "#EXTINF:2.0,"; "/x.ts"], true).
Proof. reflexivity. Qed.

Example default_window_size :
  windowSize (NewService 0) = 6 ∧ windowSize (NewService (-3)) = 6.
Proof. split; reflexivity. Qed.

Example out_of_order_converges :
  GetRenditionSnapshot
    (register_all NewInMemoryStore "s1" "720p"
       [(7, segment 3 20 "/3.ts"); (8, segment 2 20 "/2.ts");
        (9, segment 1 20 "/1.ts")]) "s1" "720p"
  = ([filed 1 20 "/1.ts" 9; filed 2 20 "/2.ts" 8;
      filed 3 20 "/3.ts" 7], false, true).
Proof. reflexivity. Qed.

Example active_streams :
  ActiveStreamCount
    (run NewInMemoryStore
       [OpRegisterSegment 1 "a" "720p" (segment 1 20 "/1.ts");
        OpRegisterSegment 2 "b" "720p" (segment 1 20 "/1.ts");
        OpEndStream "a"])
  = 1.
Proof. reflexivity. Qed.

(** ** C1 *)

Lemma visible_window_contiguous_bounded_witness :
  let segs := [segment 4 20 "/4.ts"; segment 5 20 "/5.ts";
               segment 7 20 "/7.ts"; segment 8 20 "/8.ts"] in
  sorted_by_sequence segs ∧ go_slice segs ∧ 0 < 3 ∧
  ∃ visible,
    contiguousVisibleSegments segs 3 = Returns visible ∧
    visible `sublist_of` segs ∧ no_gap visible ∧ len visible ≤ 3.
Proof.
  cbv zeta.
  assert (sorted_by_sequence
            [segment 4 20 "/4.ts"; segment 5 20 "/5.ts";
             segment 7 20 "/7.ts"; segment 8 20 "/8.ts"]) as Hsorted.
  { repeat constructor; simpl; lia. }
  assert (go_slice
            [segment 4 20 "/4.ts"; segment 5 20 "/5.ts";
             segment 7 20 "/7.ts"; segment 8 20 "/8.ts"]) as Hslice.
  { split; [repeat constructor; by vm_compute|by vm_compute]. }
  split; [exact Hsorted|]. split; [exact Hslice|]. split; [lia|].
  apply (visible_window_contiguous_bounded _ 3 Hsorted Hslice). lia.
Defined.

(** ** C10 *)

Lemma visible_window_nonempty_witness :
  let segs := [segment 4 20 "/4.ts"; segment 7 20 "/7.ts"] in
  segs ≠ [] ∧ len segs ≤ int64_max ∧ 1 ≤ 1 ∧
  ∃ first rest,
    contiguousVisibleSegments segs 1 = Returns (first :: rest) ∧
    head (candidate_window segs 1) = Some first.
Proof.
  cbv zeta. split; [done|]. split; [by vm_compute|]. split; [lia|].
  apply visible_window_nonempty; [done|by vm_compute|lia].
Defined.

(** ** C2 *)

(** After 1, 2, 4, 5 and then 3 the rendition holds five segments and five
    are visible, not six. *)
Lemma five_segments_visible_not_six :
  let r5 :=
    register_all NewInMemoryStore "s1" "720p"
      [(11, segment 1 20 "/1.ts"); (12, segment 2 20 "/2.ts");
       (14, segment 4 20 "/4.ts"); (15, segment 5 20 "/5.ts");
       (16, segment 3 20 "/3.ts")] in
  let visible :=
    [filed 1 20 "/1.ts" 11; filed 2 20 "/2.ts" 12;
     filed 3 20 "/3.ts" 16; filed 4 20 "/4.ts" 14;
     filed 5 20 "/5.ts" 15] in
  GetRenditionSnapshot r5 "s1" "720p" = (visible, false, true) ∧
  contiguousVisibleSegments visible 6 = Returns visible ∧
  GetPlaylist (NewService 6) r5 "s1" "720p"
  = Returns (BuildLivePlaylist visible false, true) ∧
  length visible ≠ 6%nat.
Proof.
  cbv zeta. split; [reflexivity|]. split; [reflexivity|].
  split; [reflexivity|]. simpl. lia.
Qed.

Lemma gap_hides_until_filled_witness :
  let r4 :=
    register_all NewInMemoryStore "s1" "720p"
      [(11, segment 1 20 "/1.ts"); (12, segment 2 20 "/2.ts");
       (14, segment 4 20 "/4.ts"); (15, segment 5 20 "/5.ts")] in
  let r5 := (RegisterSegment 16 r4 "s1" "720p" (segment 3 20 "/3.ts")).1 in
  ¬ stream_ended NewInMemoryStore "s1" ∧
  lookup_rendition NewInMemoryStore "s1" "720p" = None ∧
  GetPlaylist (NewService 6) r4 "s1" "720p"
  = Returns (BuildLivePlaylist
               [filed 1 20 "/1.ts" 11; filed 2 20 "/2.ts" 12]
               false, true) ∧
  GetPlaylist (NewService 6) r5 "s1" "720p"
  = Returns (BuildLivePlaylist
               [filed 1 20 "/1.ts" 11; filed 2 20 "/2.ts" 12;
                filed 3 20 "/3.ts" 16; filed 4 20 "/4.ts" 14;
                filed 5 20 "/5.ts" 15] false, true).
Proof.
  cbv zeta.
  assert (¬ stream_ended NewInMemoryStore "s1") as Hlive.
  { by intros (stream & Hstream & _). }
  assert (lookup_rendition NewInMemoryStore "s1" "720p" = None) as Hfresh.
  { reflexivity. }
  split; [exact Hlive|]. split; [exact Hfresh|].
  exact (gap_hides_until_filled NewInMemoryStore "s1" "720p"
           20 20 20 20 20 "/1.ts" "/2.ts" "/3.ts" "/4.ts" "/5.ts"
           11 12 16 14 15 Hlive Hfresh).
Defined.

(** ** C3 *)

(** A direct call with window size -1 on one segment does not return. *)
Lemma negative_window_direct_call_panics :
  contiguousVisibleSegments [segment 1 20 "/1.ts"] (-1) = Panics ∧
  ¬ ∃ visible,
      contiguousVisibleSegments [segment 1 20 "/1.ts"] (-1) = Returns visible.
Proof. split; [reflexivity|]. by intros [visible Hvisible]. Qed.

Lemma nonpositive_window_guarded_at_construction_witness :
  let segs := [segment 1 20 "/1.ts"] in
  len segs ≤ int64_max ∧ int64_min ≤ -1 ≤ 0 ∧
  (-1 = 0 → contiguousVisibleSegments segs (-1) = Returns []) ∧
  (segs = [] → contiguousVisibleSegments segs (-1) = Returns []) ∧
  (-1 < 0 → segs ≠ [] → contiguousVisibleSegments segs (-1) = Panics) ∧
  windowSize (NewService (-1)) = DefaultWindowSize ∧
  ∃ visible,
    contiguousVisibleSegments segs (windowSize (NewService (-1)))
    = Returns visible.
Proof.
  cbv zeta.
  assert (len [segment 1 20 "/1.ts"] ≤ int64_max) as Hlen by by vm_compute.
  assert (int64_min ≤ -1 ≤ 0) as Hw by (split; by vm_compute).
  split; [exact Hlen|]. split; [exact Hw|].
  exact (nonpositive_window_guarded_at_construction _ (-1) Hlen Hw).
Defined.

(** ** C4 *)

(** A duplicate that arrives after the stream has ended is answered with
    [ErrStreamEnded]. *)
Lemma duplicate_after_end_rejected :
  let r :=
    run NewInMemoryStore
      [OpRegisterSegment 100 "s1" "720p" (segment 1 20 "/1.ts");
       OpEndStream "s1"] in
  lookup_segment r "s1" "720p" 1 = Some (filed 1 20 "/1.ts" 100) ∧
  RegisterSegment 200 r "s1" "720p" (segment 1 40 "/other.ts")
  = (r, Some ErrStreamEnded).
Proof. cbv zeta. split; reflexivity. Qed.

Lemma duplicate_registration_noop_witness :
  let r :=
    run NewInMemoryStore
      [OpRegisterSegment 100 "s1" "720p" (segment 1 20 "/1.ts")] in
  Sequence (segment 1 60 "/third.ts") = Sequence (segment 1 40 "/other.ts") ∧
  lookup_segment r "s1" "720p" 1 = Some (filed 1 20 "/1.ts" 100) ∧
  (let '(r', err) :=
     RegisterSegment 200 r "s1" "720p" (segment 1 40 "/other.ts") in
   r' = r ∧
   lookup_segment r' "s1" "720p" 1 = Some (filed 1 20 "/1.ts" 100) ∧
   (err = None ↔ ¬ stream_ended r "s1" ∧ ¬ rendition_ended r "s1" "720p")) ∧
  RegisterSegment 300
    (RegisterSegment 200 r "s1" "720p" (segment 1 40 "/other.ts")).1
    "s1" "720p" (segment 1 60 "/third.ts")
  = ((RegisterSegment 200 r "s1" "720p" (segment 1 40 "/other.ts")).1,
     (RegisterSegment 200 r "s1" "720p" (segment 1 40 "/other.ts")).2).
Proof.
  cbv zeta.
  assert (Sequence (segment 1 60 "/third.ts")
          = Sequence (segment 1 40 "/other.ts")) as Hseq by reflexivity.
  destruct (duplicate_registration_noop 200 300
              (run NewInMemoryStore
                 [OpRegisterSegment 100 "s1" "720p" (segment 1 20 "/1.ts")])
              "s1" "720p" (segment 1 40 "/other.ts")
              (segment 1 60 "/third.ts") Hseq) as [Hdup Htwice].
  split; [exact Hseq|]. split; [reflexivity|].
  split; [|exact Htwice].
  apply (Hdup (filed 1 20 "/1.ts" 100)). reflexivity.
Defined.

(** ** C6 *)

Lemma end_stream_is_terminal_witness :
  let r :=
    run NewInMemoryStore
      [OpRegisterSegment 1 "s1" "720p" (segment 1 20 "/1.ts")] in
  let r' :=
    run (EndStream r "s1").1
      [OpRegisterSegment 2 "s2" "720p" (segment 1 20 "/1.ts");
       OpEndStream "s1"] in
  is_Some (GetStream r "s1") ∧
  GetStream r "s9" = None ∧
  RegisterSegment 3 r' "s1" "480p" (segment 2 20 "/2.ts")
  = (r', Some ErrStreamEnded) ∧
  EndStream r' "s1" = (r', None) ∧
  EndStream r "s9" = (r, None).
Proof.
  cbv zeta.
  destruct (end_stream_is_terminal
              (run NewInMemoryStore
                 [OpRegisterSegment 1 "s1" "720p" (segment 1 20 "/1.ts")])
              "s1") as (Hended & _ & _).
  destruct (end_stream_is_terminal
              (run NewInMemoryStore
                 [OpRegisterSegment 1 "s1" "720p" (segment 1 20 "/1.ts")])
              "s9") as (_ & Hunknown & _).
  assert (is_Some
            (GetStream
               (run NewInMemoryStore
                  [OpRegisterSegment 1 "s1" "720p" (segment 1 20 "/1.ts")])
               "s1")) as Hsome.
  { eexists. reflexivity. }
  split; [exact Hsome|]. split; [reflexivity|].
  destruct (Hended Hsome
              [OpRegisterSegment 2 "s2" "720p" (segment 1 20 "/1.ts");
               OpEndStream "s1"]
              3 "480p" (segment 2 20 "/2.ts")) as [Hreg Hend].
  split; [exact Hreg|]. split; [exact Hend|].
  apply Hunknown. reflexivity.
Defined.

(** ** C7 *)

Lemma snapshot_found_sorted_complete_witness :
  let r :=
    run NewInMemoryStore
      [OpRegisterSegment 7 "s1" "720p" (segment 3 20 "/3.ts");
       OpRegisterSegment 8 "s1" "720p" (segment 1 20 "/1.ts");
       OpEndStream "s1"] in
  reachable r ∧
  let '(segments, ended, ok) := GetRenditionSnapshot r "s1" "720p" in
  (ok = false ↔
     GetStream r "s1" = None ∨
     ∃ stream, GetStream r "s1" = Some stream ∧
               Renditions stream !! "720p" = None) ∧
  ∀ stream rendition,
    GetStream r "s1" = Some stream →
    Renditions stream !! "720p" = Some rendition →
    ended = RenditionState_Ended rendition ∧
    (∀ seg, seg ∈ segments ↔ ∃ seq, Segments rendition !! seq = Some seg) ∧
    length segments = size (Segments rendition) ∧
    StronglySorted (λ a b, Sequence a < Sequence b) segments.
Proof.
  cbv zeta.
  assert (reachable
            (run NewInMemoryStore
               [OpRegisterSegment 7 "s1" "720p" (segment 3 20 "/3.ts");
                OpRegisterSegment 8 "s1" "720p" (segment 1 20 "/1.ts");
                OpEndStream "s1"])) as Hreach.
  { eexists. reflexivity. }
  split; [exact Hreach|].
  exact (snapshot_found_sorted_complete _ "s1" "720p" Hreach).
Defined.

(** ** C8 *)

(** A path that reads [#EXT-X-ENDLIST] is the last line of a playlist that
    has not ended. *)
Lemma path_forges_end_marker :
  BuildLivePlaylist [segment 1 20 "#EXT-X-ENDLIST"] false
  = unlines ["#EXTM3U"; "#EXT-X-VERSION:3"; "#EXT-X-TARGETDURATION:2";
             "#EXT-X-MEDIA-SEQUENCE:1"; "";
             "#EXTINF:2.0,"; "#EXT-X-ENDLIST"] ∧
  has_trailing_endlist
    (BuildLivePlaylist [segment 1 20 "#EXT-X-ENDLIST"] false) = true ∧
  ¬ (has_trailing_endlist
       (BuildLivePlaylist [segment 1 20 "#EXT-X-ENDLIST"] false) = true
     ↔ false = true).
Proof.
  split; [reflexivity|]. split; [reflexivity|].
  intros [Hforged _]. discriminate Hforged. reflexivity.
Qed.

(** ** Out-of-order arrival, default window size, lazy creation *)

Lemma out_of_order_convergence_witness :
  let arrivals :=
    [(7, segment 1 20 "/1.ts"); (8, segment 2 20 "/2.ts");
     (9, segment 3 20 "/3.ts")] in
  let arrivals' :=
    [(7, segment 3 20 "/3.ts"); (8, segment 2 20 "/2.ts");
     (9, segment 1 20 "/1.ts")] in
  reachable NewInMemoryStore ∧
  live NewInMemoryStore "s1" "720p" ∧
  NoDup (Sequence <$> arrivals.*2) ∧
  arrivals'.*2 ≡ₚ arrivals.*2 ∧
  let r1 := register_all NewInMemoryStore "s1" "720p" arrivals in
  let r2 := register_all NewInMemoryStore "s1" "720p" arrivals' in
  let '(segments1, ended1, ok1) := GetRenditionSnapshot r1 "s1" "720p" in
  let '(segments2, ended2, ok2) := GetRenditionSnapshot r2 "s1" "720p" in
  untimed <$> segments2 = untimed <$> segments1 ∧
  ended2 = ended1 ∧
  ok2 = ok1 ∧
  GetPlaylist (NewService 6) r2 "s1" "720p"
  = GetPlaylist (NewService 6) r1 "s1" "720p".
Proof.
  cbv zeta.
  assert (reachable NewInMemoryStore) as Hreach.
  { by exists []. }
  assert (live NewInMemoryStore "s1" "720p") as Hlive.
  { split; by intros (x & Hx & _). }
  assert (NoDup (Sequence <$>
                   [(7, segment 1 20 "/1.ts"); (8, segment 2 20 "/2.ts");
                    (9, segment 3 20 "/3.ts")].*2)) as Hnodup.
  { apply (bool_decide_unpack _). reflexivity. }
  assert ([(7, segment 3 20 "/3.ts"); (8, segment 2 20 "/2.ts");
           (9, segment 1 20 "/1.ts")].*2
          ≡ₚ [(7, segment 1 20 "/1.ts"); (8, segment 2 20 "/2.ts");
              (9, segment 3 20 "/3.ts")].*2) as Hperm.
  { symmetry.
    exact (Permutation_rev
             [segment 1 20 "/1.ts"; segment 2 20 "/2.ts";
              segment 3 20 "/3.ts"]). }
  split; [exact Hreach|]. split; [exact Hlive|]. split; [exact Hnodup|].
  split; [exact Hperm|].
  exact (out_of_order_convergence (NewService 6) NewInMemoryStore "s1" "720p"
           _ _ Hreach Hlive Hnodup Hperm).
Defined.

Lemma serving_path_never_panics_witness :
  let r :=
    register_all NewInMemoryStore "s1" "720p"
      [(7, segment 1 20 "/1.ts"); (8, segment 3 20 "/3.ts")] in
  (∀ rendition,
     lookup_rendition r "s1" "720p" = Some rendition →
     Z.of_nat (size (Segments rendition)) ≤ int64_max) ∧
  0 < windowSize (NewService (-5)) ∧
  ∃ answer, GetPlaylist (NewService (-5)) r "s1" "720p" = Returns answer.
Proof.
  cbv zeta.
  assert (∀ rendition,
            lookup_rendition
              (register_all NewInMemoryStore "s1" "720p"
                 [(7, segment 1 20 "/1.ts"); (8, segment 3 20 "/3.ts")])
              "s1" "720p" = Some rendition →
            Z.of_nat (size (Segments rendition)) ≤ int64_max) as Hsize.
  { intros rendition Hrendition. injection Hrendition as <-. by vm_compute. }
  split; [exact Hsize|].
  exact (serving_path_never_panics (-5) _ "s1" "720p" Hsize).
Defined.

Lemma reachable_nothing_empty_witness :
  let r :=
    run NewInMemoryStore
      [OpRegisterSegment 7 "s1" "720p" (segment 1 20 "/1.ts");
       OpEndStream "s2"; OpEndStream "s1";
       OpRegisterSegment 8 "s1" "480p" (segment 1 20 "/1.ts")] in
  reachable r ∧ nothing_empty r.
Proof.
  cbv zeta.
  assert (reachable
            (run NewInMemoryStore
               [OpRegisterSegment 7 "s1" "720p" (segment 1 20 "/1.ts");
                OpEndStream "s2"; OpEndStream "s1";
                OpRegisterSegment 8 "s1" "480p" (segment 1 20 "/1.ts")]))
    as Hreach.
  { eexists. reflexivity. }
  split; [exact Hreach|]. exact (reachable_nothing_empty _ Hreach).
Defined.

(** * Runs of the rest of the package *)

(** ** Stand-ins for the library *)

(** A decoder that knows two bodies. *)
Definition decode_sample (body : string) : option (Z * Z * string) :=
  if bool_decide (body = "first") then Some (1, 20, "/1.ts")
  else if bool_decide (body = "fifth") then Some (5, 25, "/5.ts")
  else None.

Lemma decode_sample_int64 body sequence duration path :
  decode_sample body = Some (sequence, duration, path) → in_int64 sequence.
Proof.
  unfold decode_sample. repeat case_bool_decide; intros [= <- <- <-];
    by vm_compute.
Qed.

Global Instance sample_decoder : SegmentDecoder := {|
  decode_segment := decode_sample;
  decode_segment_int64 := decode_sample_int64
|}.

(** Decimal digits, most significant first. *)
Fixpoint digits_value (acc : Z) (s : string) : option Z :=
  match s with
  | EmptyString => Some acc
  | String c s' =>
      let n := Z.of_nat (nat_of_ascii c) in
      if bool_decide (48 ≤ n ≤ 57)
      then digits_value (10 * acc + (n - 48)) s'
      else None
  end.

(** [strconv.Atoi] on an optional sign and decimal digits. *)
Definition decimal_atoi (s : string) : option Z :=
  let in_range n := if bool_decide (in_int64 n) then Some n else None in
  match s with
  | EmptyString => None
  | String "-" (String c s') => digits_value 0 (String c s') ≫= λ n, in_range (- n)
  | String "+" (String c s') => digits_value 0 (String c s') ≫= in_range
  | _ => digits_value 0 s ≫= in_range
  end.

Global Instance decimal_strconv : Strconv := {| Atoi := decimal_atoi |}.

Lemma tenths_ordinary : @ordinary_durations tenths (λ _, True).
Proof.
  unfold ordinary_durations. simpl. split_and!; try done.
  - intros a b _ _. repeat case_bool_decide; simpl; try done; lia.
  - intros a b _ _. destruct (decide (a ≤ b)).
    + left. by apply bool_decide_eq_true.
    + right. apply bool_decide_eq_true. lia.
  - intros a b c _ _ _. rewrite !bool_decide_eq_true. lia.
  - intros a b _ _. rewrite bool_decide_eq_true. intros Hle.
    assert (- b / 10 ≤ - a / 10) by (apply Z.div_le_mono; lia). lia.
  - intros a _. rewrite bool_decide_eq_false. intros Hpos.
    assert (- a / 10 < 0) by (apply Z.div_lt_upper_bound; lia). lia.
Qed.

(** ** A repository with a gap and an ended stream *)

Definition sample_store : InMemoryStore :=
  run NewInMemoryStore
    [OpRegisterSegment 7 "s1" "720p" (segment 1 20 "/1.ts");
     OpRegisterSegment 8 "s1" "720p" (segment 2 25 "/2.ts");
     OpRegisterSegment 9 "s1" "720p" (segment 4 20 "/4.ts");
     OpRegisterSegment 9 "s2" "480p" (segment 1 20 "/1.ts");
     OpEndStream "s2"].

Lemma sample_store_reachable : reachable sample_store.
Proof. eexists. reflexivity. Qed.

Lemma sample_store_segments :
  segments_of sample_store "s1" "720p"
  = <[1 := filed 1 20 "/1.ts" 7]>
      (<[2 := filed 2 25 "/2.ts" 8]> (<[4 := filed 4 20 "/4.ts" 9]> ∅)).
Proof. reflexivity. Qed.

Lemma sample_store_int64 :
  map_Forall (λ sequence _, in_int64 sequence)
    (segments_of sample_store "s1" "720p").
Proof.
  rewrite sample_store_segments.
  repeat (apply map_Forall_insert_2; [by vm_compute|]).
  apply map_Forall_empty.
Qed.

Lemma sample_store_size :
  Z.of_nat (size (segments_of sample_store "s1" "720p")) ≤ int64_max.
Proof. rewrite sample_store_segments. by vm_compute. Qed.

Example sample_playlist :
  GetPlaylist (NewService 0) sample_store "s1" "720p"
  = Returns
      (unlines ["#EXTM3U"; "#EXT-X-VERSION:3"; "#EXT-X-TARGETDURATION:3";
                "#EXT-X-MEDIA-SEQUENCE:1"; "";
                "#EXTINF:2.0,"; "/1.ts"; "#EXTINF:2.5,"; "/2.ts"], true).
Proof. reflexivity. Qed.

Example configured_windows :
  windowSize (main_service {[ "SLIDING_WINDOW_SIZE" := "12" ]}) = 12 ∧
  windowSize (main_service {[ "SLIDING_WINDOW_SIZE" := "0" ]}) = 6 ∧
  windowSize (main_service {[ "SLIDING_WINDOW_SIZE" := "-3" ]}) = 6 ∧
  windowSize (main_service {[ "SLIDING_WINDOW_SIZE" := "six" ]}) = 6 ∧
  windowSize (main_service ∅) = 6.
Proof. repeat split; reflexivity. Qed.

Example handlers_in_a_row :
  let post body :=
    mkRequest "POST" {[ "stream_id" := "s1"; "rendition" := "720p" ]} body in
  let h0 := mkHandler NewInMemoryStore (Some (mkMetrics 0 0 0 0)) in
  let '(h1, calls1) := Handler_RegisterSegment (NewService 6) 7 h0 (post "first") in
  let '(h2, calls2) := Handler_RegisterSegment (NewService 6) 8 h1 (post "first") in
  let '(h3, calls3) := Handler_RegisterSegment (NewService 6) 9 h2 (post "{") in
  let '(h4, calls4) := Handler_EndStream (NewService 6) h3 (post "") in
  let '(h5, calls5) := Handler_RegisterSegment (NewService 6) 9 h4 (post "fifth") in
  (calls1, calls2, calls3, calls4, calls5)
  = ([CallWriteHeader 201], [CallWriteHeader 201], [CallWriteHeader 400],
     [CallWriteHeader 200], [CallWriteHeader 409]) ∧
  metrics h5 = Some (mkMetrics 0 2 1 0) ∧
  repo h2 = repo h1.
Proof. repeat split; reflexivity. Qed.

(** ** The history-anchored selector *)


Lemma selectors_agree_without_gap_witness :
  let segs := [segment 4 20 "/4.ts"; segment 5 20 "/5.ts";
               segment 6 20 "/6.ts"] in
  no_gap segs ∧ go_slice segs ∧ 0 < 2 ≤ modest_capacity ∧
  contiguousSlidingWindow segs 2
  = Returns (drop (length segs - Z.to_nat 2) segs) ∧
  contiguousVisibleSegments segs 2
  = Returns (drop (length segs - Z.to_nat 2) segs).
Proof.
  cbv zeta.
  assert (no_gap [segment 4 20 "/4.ts"; segment 5 20 "/5.ts";
                  segment 6 20 "/6.ts"]) as Hgap.
  { intros [|[|[|i]]] a b Ha Hb; simpl in Ha, Hb; simplify_eq; reflexivity. }
  assert (go_slice [segment 4 20 "/4.ts"; segment 5 20 "/5.ts";
                    segment 6 20 "/6.ts"]) as Hslice.
  { split; [repeat constructor; by vm_compute|by vm_compute]. }
  assert (0 < 2 ≤ modest_capacity) as Hwindow.
  { split; [lia|by vm_compute]. }
  split; [exact Hgap|]. split; [exact Hslice|]. split; [exact Hwindow|].
  exact (selectors_agree_without_gap _ 2 Hgap Hslice Hwindow).
Defined.

(** ** The target duration *)

Lemma target_duration_covers_segments_witness :
  let segments := [segment 1 20 "/1.ts"; segment 2 25 "/2.ts";
                   segment 3 11 "/3.ts"] in
  @ordinary_durations tenths (λ _, True) ∧
  Forall (λ seg, True) segments ∧
  1 ≤ targetDurationFromSegments segments ∧
  Forall (λ seg, f64_ceil_int (Duration seg)
                 ≤ targetDurationFromSegments segments) segments.
Proof.
  cbv zeta.
  assert (Forall (λ _ : Segment, True)
            [segment 1 20 "/1.ts"; segment 2 25 "/2.ts";
             segment 3 11 "/3.ts"]) as Hall.
  { repeat constructor. }
  split; [exact tenths_ordinary|]. split; [exact Hall|].
  exact (target_duration_covers_segments (λ _, True) _ tenths_ordinary Hall).
Defined.

(** ** The registry *)

Lemma rendition_ends_with_its_stream_witness :
  reachable sample_store ∧
  (∀ rendition,
     lookup_rendition sample_store "s2" "480p" = Some rendition →
     (RenditionState_Ended rendition = true ↔ stream_ended sample_store "s2")) ∧
  ∀ now seg,
    (RegisterSegment now sample_store "s2" "480p" seg).2
    ≠ Some ErrRenditionEnded.
Proof.
  split; [exact sample_store_reachable|].
  exact (rendition_ends_with_its_stream sample_store "s2" "480p"
           sample_store_reachable).
Defined.

Lemma end_stream_keeps_segments_witness :
  reachable sample_store ∧
  GetRenditionSnapshot (EndStream sample_store "s1").1 "s1" "720p"
  = let '(segments, ended, ok) := GetRenditionSnapshot sample_store "s1" "720p" in
    (segments, if decide ("s1" = "s1") then ok else ended, ok).
Proof.
  split; [exact sample_store_reachable|].
  exact (end_stream_keeps_segments sample_store "s1" "s1" "720p"
           sample_store_reachable).
Defined.

Lemma reachable_filed_by_identifier_witness :
  reachable sample_store ∧ ids_match sample_store ∧ keys_match sample_store.
Proof.
  split; [exact sample_store_reachable|].
  exact (reachable_filed_by_identifier sample_store sample_store_reachable).
Defined.

(** ** The playlist *)

Lemma playlist_shows_live_edge_run_witness :
  reachable sample_store ∧
  map_Forall (λ sequence _, in_int64 sequence)
    (segments_of sample_store "s1" "720p") ∧
  Z.of_nat (size (segments_of sample_store "s1" "720p")) ≤ int64_max ∧
  let s := NewService 0 in
  let '(segments, ended, ok) := GetRenditionSnapshot sample_store "s1" "720p" in
  if ok then
    ∃ window final,
      GetPlaylist s sample_store "s1" "720p"
      = Returns (BuildLivePlaylist window ended, true) ∧
      window `prefix_of`
        drop (length segments - Z.to_nat (windowSize s)) segments ∧
      last window = Some final ∧
      no_gap window ∧
      lookup_segment sample_store "s1" "720p" (Sequence final + 1) = None
  else GetPlaylist s sample_store "s1" "720p" = Returns ("", false).
Proof.
  split; [exact sample_store_reachable|].
  split; [exact sample_store_int64|]. split; [exact sample_store_size|].
  exact (playlist_shows_live_edge_run 0 sample_store "s1" "720p"
           sample_store_reachable sample_store_int64 sample_store_size).
Defined.

Lemma ended_playlist_is_final_witness :
  reachable sample_store ∧
  is_Some (lookup_rendition sample_store "s1" "720p") ∧
  Z.of_nat (size (segments_of sample_store "s1" "720p")) ≤ int64_max ∧
  let r0 := (EndStream sample_store "s1").1 in
  ∃ text,
    GetPlaylist (NewService 0) r0 "s1" "720p" = Returns (text, true) ∧
    has_trailing_endlist text = true ∧
    ∀ ops,
      GetPlaylist (NewService 0) (run r0 ops) "s1" "720p"
      = Returns (text, true).
Proof.
  assert (is_Some (lookup_rendition sample_store "s1" "720p")) as Hsome.
  { eexists. reflexivity. }
  split; [exact sample_store_reachable|]. split; [exact Hsome|].
  split; [exact sample_store_size|].
  exact (ended_playlist_is_final 0 sample_store "s1" "720p"
           sample_store_reachable Hsome sample_store_size).
Defined.

(** ** The handlers *)

Definition sample_get : Request :=
  mkRequest "GET" {[ "stream_id" := "s1"; "rendition" := "720p" ]} "".

Lemma sample_get_size :
  Z.of_nat
    (size (segments_of sample_store (URLParam sample_get "stream_id")
             (URLParam sample_get "rendition"))) ≤ int64_max.
Proof. exact sample_store_size. Qed.

Lemma playlist_handler_answers_witness :
  let h := mkHandler sample_store None in
  let s := NewService 0 in
  let streamID := URLParam sample_get "stream_id" in
  let renditionID := URLParam sample_get "rendition" in
  Z.of_nat (size (segments_of (repo h) streamID renditionID)) ≤ int64_max ∧
  ∃ calls,
    Handler_GetPlaylist s h sample_get = Returns calls ∧
    ((Method sample_get ≠ MethodGet ∧
      calls = [CallWriteHeader StatusMethodNotAllowed]) ∨
     (Method sample_get = MethodGet ∧ (streamID = "" ∨ renditionID = "") ∧
      calls = [CallWriteHeader StatusBadRequest]) ∨
     (Method sample_get = MethodGet ∧ streamID ≠ "" ∧ renditionID ≠ "" ∧
      lookup_rendition (repo h) streamID renditionID = None ∧
      calls = [CallWriteHeader StatusNotFound]) ∨
     (Method sample_get = MethodGet ∧ streamID ≠ "" ∧ renditionID ≠ "" ∧
      is_Some (lookup_rendition (repo h) streamID renditionID) ∧
      ∃ text,
        GetPlaylist s (repo h) streamID renditionID = Returns (text, true) ∧
        calls = [CallHeaderSet "Content-Type" "application/vnd.apple.mpegurl";
                 CallWriteHeader StatusOK;
                 CallWrite text])).
Proof.
  cbv zeta. split; [exact sample_get_size|].
  exact (playlist_handler_answers 0 (mkHandler sample_store None) sample_get
           sample_get_size).
Defined.

Lemma each_request_counted_once_witness :
  let h := mkHandler sample_store (Some (mkMetrics 3 2 1 0)) in
  let m := mkMetrics 3 2 1 0 in
  let r :=
    mkRequest "POST" {[ "stream_id" := "s1"; "rendition" := "720p" ]} "fifth" in
  metrics h = Some m ∧
  (∃ h' m' code,
     RequestMiddleware
       (λ h r, Returns (Handler_RegisterSegment (NewService 6) 10 h r)) h r
     = Returns (h', [CallWriteHeader code]) ∧
     metrics h' = Some m' ∧
     requestsTotal m' = requestsTotal m + 1 ∧
     streamsEndedTotal m' = streamsEndedTotal m ∧
     ((code = StatusCreated ∧
       segmentsRegisteredTotal m' = segmentsRegisteredTotal m + 1 ∧
       errorsTotal m' = errorsTotal m) ∨
      (code >= 400 ∧
       segmentsRegisteredTotal m' = segmentsRegisteredTotal m ∧
       errorsTotal m' = errorsTotal m + 1))) ∧
  (∃ h' m' code,
     RequestMiddleware (λ h r, Returns (Handler_EndStream (NewService 6) h r)) h r
     = Returns (h', [CallWriteHeader code]) ∧
     metrics h' = Some m' ∧
     requestsTotal m' = requestsTotal m + 1 ∧
     segmentsRegisteredTotal m' = segmentsRegisteredTotal m ∧
     ((code = StatusOK ∧
       streamsEndedTotal m' = streamsEndedTotal m + 1 ∧
       errorsTotal m' = errorsTotal m) ∨
      (code >= 400 ∧
       streamsEndedTotal m' = streamsEndedTotal m ∧
       errorsTotal m' = errorsTotal m + 1))).
Proof.
  cbv zeta. split; [reflexivity|].
  exact (each_request_counted_once (NewService 6) 10
           (mkHandler sample_store (Some (mkMetrics 3 2 1 0)))
           (mkRequest "POST" {[ "stream_id" := "s1"; "rendition" := "720p" ]}
              "fifth")
           (mkMetrics 3 2 1 0) eq_refl).
Defined.
